(** * fetch.py: URL to content materializer -- shallow embedding and properties

    The embedding follows [scripts/fetch.py] function by function.  Python
    [str] values are sequences of Unicode code points; exceptions are explicit
    results; the network, the headless browser, the clock and the file system
    are explicit parts of the state the functions are run in.

    What the program takes from outside is a parameter of the model:
    - the Unicode database outside ASCII, [json.loads] and [urlparse] are
      the fields of a [Library];
    - what [urlopen] answers and what the browser session ends with are the
      fields of a [World]; the DOM walkers of lines 300-416 run inside the
      browser session: they are given on a loaded [Page], and
      [session_outcome] is the outcome of the session that loads it;
    - the clock readings and the world at each fetch are the fields of an
      [Env].
    Console output is left out.  The output directory is writable and
    [unlink] succeeds on a file of the queue. *)

From Stdlib Require Import ZArith NArith List String Ascii Bool Lia.
Import ListNotations.

Set Implicit Arguments.
Set Warnings "-register-all".

(* [length], [++] and friends are those of lists throughout. *)
Abbreviation length := Datatypes.length.

(* ================================================================== *)
(** * Part I: the program                                              *)
(* ================================================================== *)

(** ** Python strings *)

(** A character is a Unicode code point, a string a list of them. *)
Definition char := N.
Definition pystr := list char.

(** ASCII literals of the source are written [str "..."]. *)
Definition str (s : string) : pystr :=
  map N_of_ascii (list_ascii_of_string s).
Arguments str s%_string.

Definition NL : char := 10%N.
Definition HYPHEN : char := 45%N.
Definition EM_DASH : char := 8212%N.   (* U+2014 *)
Definition EN_DASH : char := 8211%N.   (* U+2013 *)

Open Scope N_scope.

Fixpoint str_eqb (a b : pystr) : bool :=
  match a, b with
  | [], [] => true
  | x :: a', y :: b' => (x =? y) && str_eqb a' b'
  | _, _ => false
  end.

(** [str.isspace] of one character: the white space of the Unicode
    database, which is also what [\s] matches in a [str] pattern. *)
Definition isspace (c : char) : bool :=
  ((9 <=? c) && (c <=? 13)) || ((28 <=? c) && (c <=? 32))
  || (c =? 133) || (c =? 160) || (c =? 5760)
  || ((8192 <=? c) && (c <=? 8202))
  || (c =? 8232) || (c =? 8233) || (c =? 8239) || (c =? 8287)
  || (c =? 12288).

Definition is_ascii (c : char) : bool := c <? 128.
Definition is_ascii_upper (c : char) : bool := (65 <=? c) && (c <=? 90).
Definition is_ascii_alnum (c : char) : bool :=
  ((48 <=? c) && (c <=? 57)) || ((65 <=? c) && (c <=? 90))
  || ((97 <=? c) && (c <=? 122)).

(** [s.startswith(p)] *)
Fixpoint startswith (s p : pystr) : bool :=
  match p, s with
  | [], _ => true
  | x :: p', y :: s' => (x =? y) && startswith s' p'
  | _ :: _, [] => false
  end.

(** [t in s] *)
Fixpoint contains (s t : pystr) : bool :=
  startswith s t ||
  match s with
  | [] => false
  | _ :: s' => contains s' t
  end.

(** [s.lstrip(chars)], [s.rstrip(chars)], [s.strip(chars)] for a set of
    characters given as a predicate, and [s.strip()] for white space. *)
Fixpoint lstrip_by (p : char -> bool) (s : pystr) : pystr :=
  match s with
  | c :: s' => if p c then lstrip_by p s' else s
  | [] => []
  end.

Definition rstrip_by (p : char -> bool) (s : pystr) : pystr :=
  rev (lstrip_by p (rev s)).

Definition strip_by (p : char -> bool) (s : pystr) : pystr :=
  rstrip_by p (lstrip_by p s).

Definition strip (s : pystr) : pystr := strip_by isspace s.

(** [s.split(c)] for a one-character separator: never empty. *)
Fixpoint split_char (sep : char) (s : pystr) : list pystr :=
  match s with
  | [] => [[]]
  | c :: s' =>
      if c =? sep then [] :: split_char sep s'
      else match split_char sep s' with
           | l :: ls => (c :: l) :: ls
           | [] => [[c]]
           end
  end.

(** [s.split(sep, 1)]: the text before the first occurrence of [sep] and,
    when there is one, the text after it. *)
Fixpoint split_once (sep s : pystr) : pystr * option pystr :=
  if startswith s sep then ([], Some (skipn (length sep) s))
  else match s with
       | [] => ([], None)
       | c :: s' => let (a, b) := split_once sep s' in (c :: a, b)
       end.

(** [s.replace(c, by)] for a one-character pattern. *)
Definition replace_char (c : char) (by_ : pystr) (s : pystr) : pystr :=
  flat_map (fun x => if x =? c then by_ else [x]) s.

(** ** Exceptions *)

Record exn := Exn { exn_class : string; exn_msg : pystr }.

Inductive result (A : Type) : Type :=
| Ok (a : A)
| Raise (e : exn).
Arguments Ok {A} a.
Arguments Raise {A} e.

Definition bind {A B} (m : result A) (f : A -> result B) : result B :=
  match m with
  | Ok a => f a
  | Raise e => Raise e
  end.

Notation "x <- m ;; k" := (bind m (fun x => k))
  (at level 61, m at next level, right associativity).

Fixpoint mapM {A B} (f : A -> result B) (l : list A) : result (list B) :=
  match l with
  | [] => Ok []
  | a :: l' => b <- f a ;; bs <- mapM f l' ;; Ok (b :: bs)
  end.

(** ** Python values, as far as [json.loads] produces them *)

Inductive pyval :=
| PNone
| PBool (b : bool)
| PInt (z : Z)
| PFloat (zero : bool)            (* a float; only its truth value is used *)
| PStr (s : pystr)
| PList (l : list pyval)
| PDict (d : list (pystr * pyval)).

(** [bool(v)] *)
Definition truthy (v : pyval) : bool :=
  match v with
  | PNone => false
  | PBool b => b
  | PInt z => negb (z =? 0)%Z
  | PFloat zero => negb zero
  | PStr s => match s with [] => false | _ => true end
  | PList l => match l with [] => false | _ => true end
  | PDict d => match d with [] => false | _ => true end
  end.

Definition type_name (v : pyval) : string :=
  match v with
  | PNone => "NoneType"
  | PBool _ => "bool"
  | PInt _ => "int"
  | PFloat _ => "float"
  | PStr _ => "str"
  | PList _ => "list"
  | PDict _ => "dict"
  end.

(** [d.get(key, default)] *)
Fixpoint dict_get (d : list (pystr * pyval)) (key : pystr) (default : pyval)
  : pyval :=
  match d with
  | [] => default
  | (k, v) :: d' => if str_eqb k key then v else dict_get d' key default
  end.

Definition AttributeError (v : pyval) (attr : string) : exn :=
  Exn "AttributeError"
      (str "'" ++ str (type_name v) ++ str "' object has no attribute '"
       ++ str attr ++ str "'").

Definition TypeError (msg : string) : exn := Exn "TypeError" (str msg).

(** [item.get(key, default)] on an arbitrary value: only a dict has [get]. *)
Definition py_get (item : pyval) (key : pystr) (default : pyval)
  : result pyval :=
  match item with
  | PDict d => Ok (dict_get d key default)
  | _ => Raise (AttributeError item "get")
  end.

(** ** The libraries the program calls *)

(** What [json.loads] does with a text. *)
Inductive loads_result :=
| Loaded (v : pyval)
| JSONDecodeError
| LoadsRaised (e : exn).          (* e.g. RecursionError *)

(** The parts of the Python library that are tables or parsers of their own:
    the Unicode database outside ASCII, [json.loads] and
    [urllib.parse.urlparse(...).netloc]. *)
Record Library := {
  uni_lower : char -> pystr;      (* [c.lower()] for a code point >= 128,
                                     each character on its own *)
  uni_alnum : char -> bool;       (* [c.isalnum()] for a code point >= 128 *)
  json_loads : pystr -> loads_result;
  urlparse_netloc : pystr -> result pystr
}.

(** ** Regular expressions

    The patterns of the program use literals, character classes, greedy
    repetition of a class, optional parts, capturing groups and the anchors
    [^] and [$].  The matcher is the backtracking matcher of [re]: greedy
    operators try the longest choice first and give characters back until
    the rest of the pattern matches. *)

Inductive regex :=
| Lit (s : pystr)                 (* a literal text *)
| Class (p : char -> bool)        (* one character of a class *)
| Cat (r1 r2 : regex)             (* r1 r2 *)
| Opt (r : regex)                 (* r?   *)
| Plus (p : char -> bool)         (* [class]+ *)
| Star (p : char -> bool)         (* [class]* *)
| Group (n : nat) (r : regex)     (* capturing group number n *)
| Bol                             (* ^ *)
| Eol.                            (* $ *)

Definition captures := list (nat * pystr).

Fixpoint group (caps : captures) (n : nat) : option pystr :=
  match caps with
  | [] => None
  | (m, s) :: caps' => if Nat.eqb m n then Some s else group caps' n
  end.

Record rematch := { group0 : pystr; groups : captures; after : pystr }.

Section Matcher.
Variable multiline : bool.       (* re.MULTILINE *)
Variable R : Type.

(** A continuation receives the character before the position, the text
    from the position on, and the groups captured so far. *)
Definition cont := option char -> pystr -> captures -> option R.

Fixpoint star (p : char -> bool) (k : cont) (caps : captures)
         (prev : option char) (s : pystr) : option R :=
  match s with
  | c :: s' =>
      if p c then
        match star p k caps (Some c) s' with
        | Some r => Some r
        | None => k prev s caps
        end
      else k prev s caps
  | [] => k prev s caps
  end.

Definition at_bol (prev : option char) : bool :=
  match prev with
  | None => true
  | Some c => multiline && (c =? NL)
  end.

Definition at_eol (s : pystr) : bool :=
  match s with
  | [] => true
  | c :: s' =>
      (c =? NL) && (multiline || match s' with [] => true | _ => false end)
  end.

Fixpoint rmatch (r : regex) (prev : option char) (s : pystr)
         (caps : captures) (k : cont) : option R :=
  match r with
  | Lit l =>
      if startswith s l
      then k (last (map Some l) prev) (skipn (length l) s) caps
      else None
  | Class p =>
      match s with
      | c :: s' => if p c then k (Some c) s' caps else None
      | [] => None
      end
  | Cat r1 r2 =>
      rmatch r1 prev s caps (fun prev' s' caps' => rmatch r2 prev' s' caps' k)
  | Opt r1 =>
      match rmatch r1 prev s caps k with
      | Some x => Some x
      | None => k prev s caps
      end
  | Plus p =>
      match s with
      | c :: s' => if p c then star p k caps (Some c) s' else None
      | [] => None
      end
  | Star p => star p k caps prev s
  | Group n r1 =>
      rmatch r1 prev s caps
        (fun prev' s' caps' =>
           k prev' s' ((n, firstn (length s - length s') s) :: caps'))
  | Bol => if at_bol prev then k prev s caps else None
  | Eol => if at_eol s then k prev s caps else None
  end.
End Matcher.

(** The match of [r] starting exactly at the given position. *)
Definition match_here (multiline : bool) (r : regex) (prev : option char)
           (s : pystr) : option rematch :=
  rmatch multiline r prev s []
    (fun _ rest caps =>
       Some {| group0 := firstn (length s - length rest) s;
               groups := caps; after := rest |}).

(** [re.compile(r).match(s)] *)
Definition re_match (r : regex) (s : pystr) : option rematch :=
  match_here false r None s.

Fixpoint search_from (multiline : bool) (r : regex) (prev : option char)
         (s : pystr) : option rematch :=
  match match_here multiline r prev s with
  | Some m => Some m
  | None =>
      match s with
      | [] => None
      | c :: s' => search_from multiline r (Some c) s'
      end
  end.

(** [re.search(r, s)] and [re.search(r, s, re.MULTILINE)] *)
Definition re_search (r : regex) (s : pystr) : option rematch :=
  search_from false r None s.
Definition re_search_multiline (r : regex) (s : pystr) : option rematch :=
  search_from true r None s.

(** [re.sub(r, repl, s)] for a pattern that matches no empty text: the
    matches are found from left to right and do not overlap.  The fuel
    bounds the number of steps; [length s] steps are enough. *)
Fixpoint sub_from (fuel : nat) (r : regex) (repl : pystr)
         (prev : option char) (s : pystr) : pystr :=
  match fuel with
  | O => s
  | S fuel' =>
      match s with
      | [] => []
      | c :: s' =>
          match match_here false r prev s with
          | Some m =>
              match group0 m with
              | [] => c :: sub_from fuel' r repl (Some c) s'
              | _ :: _ =>
                  repl ++ sub_from fuel' r repl
                            (last (map Some (group0 m)) prev) (after m)
              end
          | None => c :: sub_from fuel' r repl (Some c) s'
          end
      end
  end.

Definition re_sub (r : regex) (repl : pystr) (s : pystr) : pystr :=
  sub_from (length s) r repl None s.

Definition is_some {A} (o : option A) : bool :=
  match o with Some _ => true | None => false end.


Notation "r1 >> r2" := (Cat r1 r2) (at level 60, right associativity).

(** ** Decimal numerals, as [str(n)] and [%d] print them *)

Fixpoint uint_chars (u : Decimal.uint) : pystr :=
  match u with
  | Decimal.Nil => []
  | Decimal.D0 u' => 48 :: uint_chars u'
  | Decimal.D1 u' => 49 :: uint_chars u'
  | Decimal.D2 u' => 50 :: uint_chars u'
  | Decimal.D3 u' => 51 :: uint_chars u'
  | Decimal.D4 u' => 52 :: uint_chars u'
  | Decimal.D5 u' => 53 :: uint_chars u'
  | Decimal.D6 u' => 54 :: uint_chars u'
  | Decimal.D7 u' => 55 :: uint_chars u'
  | Decimal.D8 u' => 56 :: uint_chars u'
  | Decimal.D9 u' => 57 :: uint_chars u'
  end.

Definition dec (z : Z) : pystr :=
  match z with
  | Z0 => [48]
  | Zpos p => uint_chars (Pos.to_uint p)
  | Zneg p => HYPHEN :: uint_chars (Pos.to_uint p)
  end.

(** One decimal digit, and a number printed on exactly [w] digits
    ([%02d], [%04d], [%06d]); exact for [0 <= n < 10^w]. *)
Definition digit (n : Z) : char := 48 + Z.to_N (n mod 10).

Fixpoint zfill (w : nat) (n : Z) : pystr :=
  match w with
  | O => []
  | S w' => zfill w' (n / 10) ++ [digit n]
  end.

(** ** Dates

    A [datetime] in UTC is the number of microseconds since
    1970-01-01T00:00:00; [timedelta(seconds=i)] adds [i * 10^6]. *)

Definition datetime := Z.

Definition add_seconds (t : datetime) (i : Z) : datetime :=
  (t + i * 1000000)%Z.

Definition epoch_seconds (t : datetime) : Z := (t / 1000000)%Z.
Definition microsecond (t : datetime) : Z := (t mod 1000000)%Z.

(** Year, month and day of a day number counted from 1970-01-01, in the
    proleptic Gregorian calendar of [datetime]. *)
Definition civil_from_days (z : Z) : Z * Z * Z :=
  (let z := z + 719468 in
   let era := z / 146097 in
   let doe := z - era * 146097 in
   let yoe := (doe - doe / 1460 + doe / 36524 - doe / 146096) / 365 in
   let doy := doe - (365 * yoe + yoe / 4 - yoe / 100) in
   let mp := (5 * doy + 2) / 153 in
   let d := doy - (153 * mp + 2) / 5 + 1 in
   let m := if mp <? 10 then mp + 3 else mp - 9 in
   let y := yoe + era * 400 + (if m <=? 2 then 1 else 0) in
   (y, m, d))%Z.

Definition hour (t : datetime) : Z := ((epoch_seconds t mod 86400) / 3600)%Z.
Definition minute (t : datetime) : Z := ((epoch_seconds t mod 3600) / 60)%Z.
Definition second (t : datetime) : Z := (epoch_seconds t mod 60)%Z.

(** [timestamp.strftime("%Y-%m-%dT%H%M%S")], for years 1000 to 9999. *)
Definition strftime_compact (t : datetime) : pystr :=
  let '(y, m, d) := civil_from_days (epoch_seconds t / 86400)%Z in
  zfill 4 y ++ str "-" ++ zfill 2 m ++ str "-" ++ zfill 2 d ++ str "T"
  ++ zfill 2 (hour t) ++ zfill 2 (minute t) ++ zfill 2 (second t).

(** [timestamp.isoformat()] of an aware UTC datetime: the fraction is
    printed only when the microseconds are not zero. *)
Definition isoformat (t : datetime) : pystr :=
  let '(y, m, d) := civil_from_days (epoch_seconds t / 86400)%Z in
  zfill 4 y ++ str "-" ++ zfill 2 m ++ str "-" ++ zfill 2 d ++ str "T"
  ++ zfill 2 (hour t) ++ str ":" ++ zfill 2 (minute t) ++ str ":"
  ++ zfill 2 (second t)
  ++ (if (microsecond t =? 0)%Z then []
      else str "." ++ zfill 6 (microsecond t))
  ++ str "+00:00".

(** ** The outside world of one fetch *)

(** What [urlopen(req, timeout=30)], [response.read()] and
    [.decode("utf-8")] do for a request (lines 145-153). *)
Inductive http_outcome :=
| HttpBody (body : pystr)                   (* the decoded response body *)
| HTTPError (code : Z) (reason : pystr)     (* urllib.error.HTTPError *)
| URLError (reason : pystr)                 (* urllib.error.URLError *)
| HttpException (msg : pystr).              (* any other Exception, [str(e)] *)

(** What the headless browser does for a URL (lines 211-265): the import
    of playwright fails, or the session raises, or navigation and extraction
    end with a content and a title. *)
Inductive browser_outcome :=
| NotInstalled
| BrowserException (msg : pystr)
| Extracted (content title : pystr).

Record World := {
  urlopen : pystr -> http_outcome;
  browse : pystr -> browser_outcome
}.

(** The dict every fetcher returns. *)
Record FetchOutcome := {
  success : bool;
  title : pystr;
  content : pystr;
  error : option pystr
}.

Definition failed (msg : pystr) : FetchOutcome :=
  {| success := false; title := []; content := []; error := Some msg |}.

Definition fetched (t c : pystr) : FetchOutcome :=
  {| success := true; title := t; content := c; error := None |}.

(** The calls [fetch_url] makes to its two fetchers, in order. *)
Inductive event :=
| Call_fetch_via_jina (url : pystr)
| Call_fetch_via_playwright (url : pystr).

Definition traced (A : Type) : Type := A * list event.

Definition tret {A} (a : A) : traced A := (a, []).
Definition tbind {A B} (m : traced A) (f : A -> traced B) : traced B :=
  let (a, t1) := m in let (b, t2) := f a in (b, t1 ++ t2).
Definition call {A} (e : event) (a : A) : traced A := (a, [e]).

Notation "x <~ m ;; k" := (tbind m (fun x => k))
  (at level 61, m at next level, right associativity).

(** ** The program *)

Definition JINA_READER_PREFIX : pystr := str "https://r.jina.ai/".

Definition JS_REQUIRED_PATTERNS : list regex :=
  [ Lit (str "claude.ai/share/");
    Lit (str "chatgpt.com/share/");
    Lit (str "chat.openai.com/share/") ].

Definition LOGIN_PAGE_INDICATORS : list pystr :=
  [ str "Continue with Google";
    str "Continue with email";
    str "Log in";
    str "Sign up";
    str "Create an account" ].

Definition CLOUDFLARE_INDICATORS : list pystr :=
  [ str "Just a moment...";
    str "Verify you are human";
    str "checking your browser";
    str "Enable JavaScript and cookies";
    str "Ray ID:";
    str "cloudflare" ].

Record QueueItem := { url : pyval; note : pyval }.

Definition not_space (c : char) : bool := negb (isspace c).
Definition not_newline (c : char) : bool := negb (c =? NL).      (* [.] *)
Definition bullet (c : char) : bool := (c =? HYPHEN) || (c =? 42).  (* [-*] *)
Definition dash (c : char) : bool :=
  (c =? EM_DASH) || (c =? EN_DASH) || (c =? HYPHEN).

(** [https?://\S+] *)
Definition url_shape : regex :=
  Lit (str "http") >> Opt (Lit (str "s")) >> Lit (str "://") >> Plus not_space.

(** The pattern of line 80: a bullet, white space, the URL as group 1,
    then optionally white space, a dash (em, en or hyphen), white space and
    the rest of the line as group 2. *)
Definition list_pattern : regex :=
  Bol >> Class bullet >> Plus isspace >> Group 1 url_shape
  >> Opt (Plus isspace >> Class dash >> Plus isspace
          >> Group 2 (Star not_newline))
  >> Eol.

(** [^https?://\S+$] *)
Definition url_pattern : regex := Bol >> url_shape >> Eol.

(** The pattern of line 166: [#] at the start of a line, white space, and
    the rest of the line as group 1. *)
Definition title_pattern : regex :=
  Bol >> Lit (str "#") >> Plus isspace >> Group 1 (Plus not_newline) >> Eol.

Definition group_or_empty (m : rematch) (n : nat) : pystr :=
  match group (groups m) n with
  | Some s => s
  | None => []
  end.

Section Program.
Variable L : Library.

(** [c.lower()] and [s.lower()] *)
Definition lower_char (c : char) : pystr :=
  if is_ascii c then [if is_ascii_upper c then c + 32 else c]
  else uni_lower L c.

Definition lower (s : pystr) : pystr := flat_map lower_char s.

(** [\w] *)
Definition is_word (c : char) : bool :=
  if is_ascii c then is_ascii_alnum c || (c =? 95) else uni_alnum L c.

(** *** parse_input_file (lines 53-109) *)

Definition item_of (item : pyval) : result QueueItem :=
  u <- py_get item (str "url") (PStr []) ;;
  n <- py_get item (str "note") (PStr []) ;;
  Ok {| url := u; note := n |}.

(** The [try] block of lines 68-76: [Some] when the function returns or
    raises from inside it, [None] when control goes on to line 78. *)
Definition json_form (content : pystr) : option (result (list QueueItem)) :=
  if startswith content (str "{") || startswith content (str "[") then
    match json_loads L content with
    | Loaded (PDict d) =>
        Some (Ok [ {| url := dict_get d (str "url") (PStr []);
                      note := dict_get d (str "note") (PStr []) |} ])
    | Loaded (PList data) => Some (mapM item_of data)
    | Loaded _ => None
    | JSONDecodeError => None
    | LoadsRaised e => Some (Raise e)
    end
  else None.

(** Lines 83-86: one item per line that matches [list_pattern]. *)
Definition list_item (line : pystr) : list QueueItem :=
  match re_match list_pattern (strip line) with
  | Some m => [ {| url := PStr (group_or_empty m 1);
                   note := PStr (group_or_empty m 2) |} ]
  | None => []
  end.

Definition list_items (lines : list pystr) : list QueueItem :=
  flat_map list_item lines.

(** Lines 91-109. *)
Definition single_form (content : pystr) : list QueueItem :=
  let parts := split_once [NL; NL] content in
  let first_part := strip (fst parts) in
  let first_line := strip (hd [] (split_char NL first_part)) in
  if is_some (re_match url_pattern first_line) then
    let note := match snd parts with
                | Some rest => strip rest
                | None => []
                end in
    [ {| url := PStr first_line; note := PStr note |} ]
  else
    match re_search url_shape content with
    | Some url_match => [ {| url := PStr (group0 url_match); note := PStr [] |} ]
    | None => []
    end.

Definition parse_input_file (content : pystr) : result (list QueueItem) :=
  let content := strip content in
  match content with
  | [] => Ok []
  | _ :: _ =>
      match json_form content with
      | Some r => r
      | None =>
          let items := list_items (split_char NL content) in
          match items with
          | _ :: _ => Ok items
          | [] => Ok (single_form content)
          end
      end
  end.

(** *** needs_js_rendering, is_login_page, is_cloudflare_challenge *)

Definition needs_js_rendering (url : pystr) : bool :=
  existsb (fun pattern => is_some (re_search pattern url))
          JS_REQUIRED_PATTERNS.

Definition is_login_page (content : pystr) : bool :=
  existsb (fun indicator => contains content indicator)
          LOGIN_PAGE_INDICATORS.

Definition cloudflare_matches (content : pystr) : list pystr :=
  let content_lower := lower content in
  filter (fun indicator => contains content_lower (lower indicator))
         CLOUDFLARE_INDICATORS.

Definition is_cloudflare_challenge (content : pystr) : bool :=
  (2 <=? length (cloudflare_matches content))%nat.

(** *** fetch_via_jina (lines 136-200) *)

Definition fetch_via_jina (W : World) (url : pystr) : FetchOutcome :=
  let jina_url := JINA_READER_PREFIX ++ url in
  match urlopen W jina_url with
  | HttpBody content =>
      if is_login_page content then
        failed (str "Got login page instead of content (JS rendering required)")
      else
        match re_search_multiline title_pattern content with
        | Some title_match =>
            fetched (strip (group_or_empty title_match 1)) content
        | None =>
            match urlparse_netloc L url with
            | Ok netloc => fetched netloc content
            | Raise e => failed (exn_msg e)
            end
        end
  | HTTPError code reason =>
      failed (str "HTTP " ++ dec code ++ str ": " ++ reason)
  | URLError reason => failed (str "URL Error: " ++ reason)
  | HttpException msg => failed msg
  end.

(** *** fetch_via_playwright (lines 203-297) *)

Definition fetch_via_playwright (W : World) (url : pystr) : FetchOutcome :=
  match browse W url with
  | NotInstalled =>
      failed (str "Playwright not installed. Run: pip install playwright && playwright install chromium")
  | BrowserException msg => failed (str "Playwright error: " ++ msg)
  | Extracted content title =>
      if match content with [] => true | _ => false end
         || (length (strip content) <? 100)%nat
      then failed (str "Failed to extract meaningful content")
      else if is_cloudflare_challenge content
              || str_eqb title (str "Just a moment...")
      then failed (str "Blocked by Cloudflare challenge (bot detection)")
      else fetched title content
  end.

(** *** fetch_url (lines 419-443) *)

(** The test of line 439 on the text of [result["error"]]. *)
Definition login_page_error (err : pystr) : bool :=
  contains (lower err) (str "login page") || contains err (str "JS rendering").

Definition fetch_url (W : World) (url : pystr)
  : traced (result FetchOutcome) :=
  if needs_js_rendering url then
    call (Call_fetch_via_playwright url) (Ok (fetch_via_playwright W url))
  else
    result <~ call (Call_fetch_via_jina url) (fetch_via_jina W url) ;;
    if success result then tret (Ok result)
    else
      match error result with
      | None => tret (Raise (AttributeError PNone "lower"))
      | Some err =>
          if login_page_error err then
            call (Call_fetch_via_playwright url)
                 (Ok (fetch_via_playwright W url))
          else tret (Ok result)
      end.

(** *** slugify and write_output (lines 446-485) *)

Definition slugify (text : pystr) (max_length : nat) : pystr :=
  let slug :=
    re_sub (Class (fun c => negb (is_word c || isspace c || (c =? HYPHEN))))
           [] (lower text) in
  let slug :=
    strip_by (fun c => c =? HYPHEN)
             (re_sub (Plus (fun c => (c =? HYPHEN) || isspace c))
                     (str "-") slug) in
  firstn max_length slug.

(** Lines 471-474: the [source_note] line, for a note that is a text. *)
Definition QUOTE : char := 34.
Definition BACKSLASH : char := 92.

Definition source_note_line (note : pyval) : result pystr :=
  if truthy note then
    match note with
    | PStr n =>
        let escaped_note := replace_char QUOTE [BACKSLASH; QUOTE] n in
        Ok (str "source_note: " ++ [QUOTE] ++ escaped_note ++ [QUOTE; NL])
    | _ => Raise (AttributeError note "replace")
    end
  else Ok [].

Definition frontmatter_head (url title : pystr) (timestamp : datetime)
  : pystr :=
  str "---" ++ [NL]
  ++ str "url: " ++ url ++ [NL]
  ++ str "title: " ++ title ++ [NL]
  ++ str "fetched_at: " ++ isoformat timestamp ++ [NL].

Definition title_slug (url title : pystr) : result pystr :=
  match title with
  | _ :: _ => Ok (slugify title 50)
  | [] => netloc <- urlparse_netloc L url ;; Ok (slugify netloc 50)
  end.

(** The file [write_output] writes: its name in the output directory and
    its text. *)
Definition output_file (url title content : pystr) (note : pyval)
           (timestamp : datetime) : result (pystr * pystr) :=
  let ts_str := strftime_compact timestamp in
  slug <- title_slug url title ;;
  let filename := ts_str ++ str "-" ++ slug ++ str ".md" in
  note_line <- source_note_line note ;;
  let frontmatter :=
    frontmatter_head url title timestamp ++ note_line
    ++ str "---" ++ [NL; NL] in
  Ok (filename, frontmatter ++ content).
End Program.

(** ** The queue runner (lines 488-569) *)

(** An entry of [fetch/queue]: its name, whether it is a regular file, and
    what [read_text(encoding="utf-8")] does on it. *)
Record DirEntry := {
  name : pystr;
  is_file : bool;
  read_text : result pystr
}.

(** The [results] dict of line 503. *)
Record Results := {
  n_success : nat;
  n_failed : nat;
  files_processed : list pystr
}.

(** The state of a run: the entries of the queue directory, the files
    written to the output directory (oldest first), the [results] dict, and
    how many fetches and clock readings were made so far. *)
Record RunState := {
  queue_dir : list DirEntry;
  written : list (pystr * pystr);
  results : Results;
  fetches : nat;
  clock_reads : nat
}.

(** The outside world of a run: the network and the browser as they are at
    the k-th fetch, and the k-th reading of [datetime.now(timezone.utc)]. *)
Record Env := {
  world_at : nat -> World;
  now_at : nat -> datetime
}.

(** Computations that change the run state and may raise. *)
Definition M (A : Type) : Type := RunState -> result A * RunState.

Definition ret {A} (a : A) : M A := fun st => (Ok a, st).
Definition raise {A} (e : exn) : M A := fun st => (Raise e, st).
Definition lift {A} (r : result A) : M A := fun st => (r, st).
Definition mbind {A B} (m : M A) (f : A -> M B) : M B :=
  fun st =>
    match m st with
    | (Ok a, st') => f a st'
    | (Raise e, st') => (Raise e, st')
    end.
Definition modify (f : RunState -> RunState) : M unit :=
  fun st => (Ok tt, f st).

(** [try: body except Exception: handler] *)
Definition try_except (body : M unit) (handler : exn -> M unit) : M unit :=
  fun st =>
    match body st with
    | (Ok tt, st') => (Ok tt, st')
    | (Raise e, st') => handler e st'
    end.

Notation "x <-- m ;; k" := (mbind m (fun x => k))
  (at level 61, m at next level, right associativity).
Notation "m ;;; k" := (mbind m (fun _ => k))
  (at level 61, right associativity).

Definition with_results (f : Results -> Results) (st : RunState) : RunState :=
  {| queue_dir := queue_dir st; written := written st;
     results := f (results st);
     fetches := fetches st; clock_reads := clock_reads st |}.

(** [results["success"] += 1], [results["failed"] += 1],
    [results["files_processed"].append(name)] *)
Definition count_success : M unit :=
  modify (with_results (fun r =>
    {| n_success := S (n_success r); n_failed := n_failed r;
       files_processed := files_processed r |})).

Definition count_failed : M unit :=
  modify (with_results (fun r =>
    {| n_success := n_success r; n_failed := S (n_failed r);
       files_processed := files_processed r |})).

Definition append_processed (f : pystr) : M unit :=
  modify (with_results (fun r =>
    {| n_success := n_success r; n_failed := n_failed r;
       files_processed := files_processed r ++ [f] |})).

(** [queue_file.unlink()] *)
Definition unlink (f : pystr) : M unit :=
  modify (fun st =>
    {| queue_dir := filter (fun e => negb (str_eqb (name e) f)) (queue_dir st);
       written := written st; results := results st;
       fetches := fetches st; clock_reads := clock_reads st |}).

(** [output_path.write_text(full_content)] *)
Definition write_text (filename text : pystr) : M unit :=
  modify (fun st =>
    {| queue_dir := queue_dir st;
       written := written st ++ [(filename, text)];
       results := results st;
       fetches := fetches st; clock_reads := clock_reads st |}).

Section Runner.
Variable L : Library.
Variable E : Env.

(** [datetime.now(timezone.utc)] *)
Definition now : M datetime :=
  fun st =>
    (Ok (now_at E (clock_reads st)),
     {| queue_dir := queue_dir st; written := written st;
        results := results st;
        fetches := fetches st; clock_reads := S (clock_reads st) |}).

(** [fetch_url(url)], the k-th of the run. *)
Definition run_fetch_url (url : pystr) : M FetchOutcome :=
  fun st =>
    (fst (fetch_url L (world_at E (fetches st)) url),
     {| queue_dir := queue_dir st; written := written st;
        results := results st;
        fetches := S (fetches st); clock_reads := clock_reads st |}).

(** [write_output] (lines 454-485); the output directory is writable. *)
Definition write_output (url title content : pystr) (note : pyval)
           (timestamp : datetime) : M pystr :=
  file <-- lift (output_file L url title content note timestamp) ;;
  write_text (fst file) (snd file) ;;;
  ret (fst file).

(** The body of the loop of lines 519-551 for the item of index [i].
    A [url] that is not a text makes [re.search] of line 115 raise. *)
Definition process_item (i : nat) (item : QueueItem) : M unit :=
  let url := url item in
  let note := note item in
  if negb (truthy url) then ret tt
  else
    match url with
    | PStr url =>
        fetch_result <-- run_fetch_url url ;;
        if success fetch_result then
          timestamp <-- now ;;
          let timestamp :=
            if (0 <? i)%nat then add_seconds timestamp (Z.of_nat i)
            else timestamp in
          write_output url (title fetch_result) (content fetch_result)
                       note timestamp ;;;
          count_success
        else count_failed
    | _ => raise (TypeError "expected string or bytes-like object")
    end.

(** [for i, item in enumerate(urls)], from index [i] on. *)
Fixpoint process_items (i : nat) (urls : list QueueItem) : M unit :=
  match urls with
  | [] => ret tt
  | item :: urls' => process_item i item ;;; process_items (S i) urls'
  end.

(** The body of the loop of lines 505-560 for one queue file. *)
Definition process_file (queue_file : DirEntry) : M unit :=
  try_except
    (content <-- lift (read_text queue_file) ;;
     urls <-- lift (parse_input_file L content) ;;
     match urls with
     | [] => count_failed
     | _ :: _ =>
         process_items 0 urls ;;;
         unlink (name queue_file) ;;;
         append_processed (name queue_file)
     end)
    (fun _ => count_failed).

Fixpoint process_files (queue_files : list DirEntry) : M unit :=
  match queue_files with
  | [] => ret tt
  | f :: fs => process_file f ;;; process_files fs
  end.

(** How [process_queue] ends. *)
Inductive run_end :=
| NoQueueDirectory
| NoFilesInQueue
| Summary (st : RunState) (exit_code : Z).

Definition initial_state (entries : list DirEntry) : RunState :=
  {| queue_dir := entries; written := [];
     results := {| n_success := 0; n_failed := 0; files_processed := [] |};
     fetches := 0; clock_reads := 0 |}.

(** [process_queue()]: [queue] is [None] when [fetch/queue] does not
    exist, and the list of its entries otherwise. *)
Definition process_queue (queue : option (list DirEntry)) : run_end :=
  match queue with
  | None => NoQueueDirectory
  | Some entries =>
      let queue_files :=
        filter (fun f => is_file f && negb (str_eqb (name f) (str ".gitkeep")))
               entries in
      match queue_files with
      | [] => NoFilesInQueue
      | _ :: _ =>
          let st := snd (process_files queue_files (initial_state entries)) in
          Summary st (if (0 <? n_failed (results st))%nat then 1 else 0)%Z
      end
  end.
End Runner.

(** ** The rendered page and its walkers (lines 245-263 and 300-416)

    A page is what the browser shows once it is loaded: its title, the
    elements a selector finds, and whether a selector appears before the
    time-out of [wait_for_selector].  An element has its inner text and,
    when it carries one, its [data-message-author-role].  The waits of
    [extract_claude_share] (lines 302-324) only pass time: their time-outs
    are caught at once and nothing is read from them. *)

Record Element := {
  inner_text : pystr;
  author_role : option pystr
}.

Record Page := {
  page_title : pystr;
  query_selector_all : pystr -> list Element;
  query_selector : pystr -> option Element;
  wait_for_selector : pystr -> result unit
}.

(** [s.replace(old, new)] for a pattern [old] that is not empty: the
    occurrences are found from left to right and do not overlap; [skip]
    counts the characters of an occurrence still to pass. *)
Fixpoint replace_from (old new : pystr) (skip : nat) (s : pystr) : pystr :=
  match s with
  | [] => []
  | c :: s' =>
      match skip with
      | S k => replace_from old new k s'
      | O =>
          if startswith s old
          then new ++ replace_from old new (length old - 1) s'
          else c :: replace_from old new 0 s'
      end
  end.

Definition replace (old new s : pystr) : pystr := replace_from old new 0 s.

(** [sep.join(l)] *)
Fixpoint join (sep : pystr) (l : list pystr) : pystr :=
  match l with
  | [] => []
  | x :: l' =>
      match l' with
      | [] => x
      | _ :: _ => x ++ sep ++ join sep l'
      end
  end.

Definition nonempty {A} (l : list A) : bool :=
  match l with [] => false | _ :: _ => true end.

Definition or_else {A} (a b : option A) : option A :=
  match a with Some _ => a | None => b end.

(** A selector on an attribute value, as [[class*="turn"]]. *)
Definition attr_has (attr value : string) : pystr :=
  str "[" ++ str attr ++ str "*=" ++ [QUOTE] ++ str value ++ [QUOTE] ++ str "]".

Definition selectors_to_try : list pystr :=
  [ attr_has "data-testid" "message";
    attr_has "class" "ConversationItem";
    attr_has "class" "message";
    attr_has "class" "Message";
    attr_has "class" "turn";
    attr_has "class" "Turn";
    str "div" ++ attr_has "class" "prose" ].

(** The separator of the turns, and the markdown of lines 371 and 414. *)
Definition TURN_SEPARATOR : pystr := [NL; NL] ++ str "---" ++ [NL; NL].

Definition markdown (title content : pystr) : pystr :=
  str "# " ++ title ++ [NL; NL] ++ content.

(** Lines 326-330. *)
Definition claude_title (page : Page) : pystr :=
  let title := page_title page in
  let title :=
    if contains title (str " - Claude")
    then strip (replace (str " - Claude") [] title)
    else title in
  if str_eqb (str "Claude") title then str "Claude Conversation" else title.

(** The loop of lines 337-340: the elements of the first selector that
    finds any. *)
Fixpoint first_turns (page : Page) (selectors : list pystr)
         (turns : list Element) : list Element :=
  match selectors with
  | [] => turns
  | selector :: rest =>
      let turns := query_selector_all page selector in
      if nonempty turns then turns else first_turns page rest turns
  end.

(** Line 359: a turn is kept when its stripped text has more than ten
    characters. *)
Definition claude_message (turn : Element) : list pystr :=
  let text := strip (inner_text turn) in
  if nonempty text && (10 <? length text)%nat then [text] else [].

(** The returns of lines 342-355, when no selector found a turn. *)
Definition claude_without_turns (page : Page) (title : pystr)
  : option (pystr * pystr) :=
  or_else
    (match query_selector page (str "main") with
     | Some main =>
         let text := inner_text main in
         if nonempty text && (100 <? length text)%nat
         then Some (markdown title text, title)
         else None
     | None => None
     end)
    (match query_selector page (str "body") with
     | Some body => Some (markdown title (inner_text body), title)
     | None => None
     end).

(** [extract_claude_share] (lines 300-373): the content and the title. *)
Definition extract_claude_share (page : Page) : pystr * pystr :=
  let title := claude_title page in
  let turns := first_turns page selectors_to_try [] in
  match (if nonempty turns then None else claude_without_turns page title) with
  | Some r => r
  | None =>
      let messages := flat_map claude_message turns in
      match (if nonempty messages then None
             else match query_selector page (str "main") with
                  | Some main => Some (markdown title (inner_text main), title)
                  | None => None
                  end) with
      | Some r => r
      | None => (markdown title (join TURN_SEPARATOR messages), title)
      end
  end.

Definition CHATGPT_WAIT : pystr :=
  attr_has "class" "agent-turn" ++ str ", " ++ attr_has "class" "user-turn"
  ++ str ", [data-message-author-role]".

Definition CHATGPT_TURNS : pystr :=
  str "[data-message-author-role], " ++ attr_has "class" "agent-turn"
  ++ str ", " ++ attr_has "class" "user-turn".

(** Lines 381-385. *)
Definition chatgpt_title (page : Page) : pystr :=
  let title := page_title page in
  let title :=
    if contains title (str " | ChatGPT")
    then strip (replace (str " | ChatGPT") [] title)
    else title in
  if contains title (str "ChatGPT - ")
  then strip (replace (str "ChatGPT - ") [] title)
  else title.

(** Lines 400-409: the block of one turn, labelled by its role. *)
Definition chatgpt_message (turn : Element) : list pystr :=
  let role := match author_role turn with Some r => r | None => [] end in
  let text := strip (inner_text turn) in
  if nonempty text then
    [ if str_eqb role (str "user") then str "**Human:**" ++ [NL] ++ text
      else if str_eqb role (str "assistant")
           then str "**Assistant:**" ++ [NL] ++ text
           else text ]
  else [].

(** [extract_chatgpt_share] (lines 376-416): it raises when no turn
    appears within the time-out. *)
Definition extract_chatgpt_share (page : Page) : result (pystr * pystr) :=
  _ <- wait_for_selector page CHATGPT_WAIT ;;
  let title := chatgpt_title page in
  let turns := query_selector_all page CHATGPT_TURNS in
  match (if nonempty turns then None
         else match query_selector page (str "main") with
              | Some main => Some (inner_text main, title)
              | None => None
              end) with
  | Some r => Ok r
  | None =>
      let messages := flat_map chatgpt_message turns in
      Ok (markdown title (join TURN_SEPARATOR messages), title)
  end.

(** Which walker a URL is given to (lines 247-253). *)
Inductive walker := ClaudeShare | ChatGPTShare | Generic.

Definition walker_of (url : pystr) : walker :=
  if contains url (str "claude.ai/share") then ClaudeShare
  else if contains url (str "chatgpt.com/share")
          || contains url (str "chat.openai.com/share") then ChatGPTShare
  else Generic.




(** ** The single-URL runner and the entry point (lines 572-601) *)

Section SingleRunner.
Variable L : Library.
Variable E : Env.

(** [fetch_single_url(url, note)]: the exit status, 1 for [sys.exit(1)];
    an exception of [write_output] is not caught. *)
Definition fetch_single_url (url note : pystr) : M Z :=
  fetch_result <-- run_fetch_url L E url ;;
  if success fetch_result then
    timestamp <-- now E ;;
    write_output L url (title fetch_result) (content fetch_result)
                 (PStr note) timestamp ;;;
    ret 0%Z
  else ret 1%Z.

(** How the program ends. *)
Inductive main_end :=
| SingleUrl (status : result Z) (st : RunState)
| QueueRun (e : run_end).

(** Lines 593-601: [argv] is [sys.argv], [queue] the queue directory. *)
Definition main (argv : list pystr) (queue : option (list DirEntry))
  : main_end :=
  match argv with
  | _ :: url :: rest =>
      let note := match rest with n :: _ => n | [] => [] end in
      let entries := match queue with Some es => es | None => [] end in
      let (status, st) := fetch_single_url url note (initial_state entries) in
      SingleUrl status st
  | _ => QueueRun (process_queue L E queue)
  end.
End SingleRunner.

(** ** A library to run the examples with

    The examples below are ASCII texts, for which the Unicode tables are
    not consulted; [json.loads] is given on the texts the examples use, and
    [netloc] for URLs of the shape [scheme://netloc/...]. *)

Fixpoint until_any (stop : char -> bool) (s : pystr) : pystr :=
  match s with
  | [] => []
  | c :: s' => if stop c then [] else c :: until_any stop s'
  end.

Fixpoint sample_netloc (s : pystr) : pystr :=
  if startswith s (str "://")
  then until_any (fun c => (c =? 47) || (c =? 63) || (c =? 35)) (skipn 3 s)
  else match s with
       | [] => []
       | _ :: s' => sample_netloc s'
       end.

Definition sample_json_loads (s : pystr) : loads_result :=
  if str_eqb s (str "[1]") then Loaded (PList [PInt 1])
  else if str_eqb s (str "{}") then Loaded (PDict [])
  else JSONDecodeError.

Definition sample_library : Library :=
  {| uni_lower := fun c => [c];
     uni_alnum := fun _ => false;
     json_loads := sample_json_loads;
     urlparse_netloc := fun u => Ok (sample_netloc u) |}.

(** ** Notions used in the statements *)

(** [stops p rest]: the text [rest] is empty or starts with a character
    outside the class [p]. *)
Definition stops (p : char -> bool) (rest : pystr) : Prop :=
  match rest with
  | [] => True
  | c :: _ => p c = false
  end.

(** The character before the position reached after reading [xs]. *)
Definition before (xs : pystr) (prev : option char) : option char :=
  last (map Some xs) prev.


(** [substring t s]: the text [t] occurs in the text [s]. *)
Definition substring (t s : pystr) : Prop := exists a b, s = a ++ t ++ b.

(** [occurs_ci L t s]: [t] occurs in [s] when both are put in lower case,
    the case-insensitive test of lines 130-131. *)
Definition occurs_ci (L : Library) (t s : pystr) : Prop :=
  substring (lower L t) (lower L s).

(** Runs of characters of the class [p] replaced by [r]: [in_run] tells
    that the character before was in the class. *)
Fixpoint squeeze (p : char -> bool) (r : pystr) (in_run : bool) (s : pystr)
  : pystr :=
  match s with
  | [] => []
  | c :: s' =>
      if p c then (if in_run then [] else r) ++ squeeze p r true s'
      else c :: squeeze p r false s'
  end.

Definition is_hyphen (c : char) : bool := c =? HYPHEN.
Definition gap (c : char) : bool := (c =? HYPHEN) || isspace c.
Definition kept (L : Library) (c : char) : bool :=
  is_word L c || isspace c || (c =? HYPHEN).

(** The slug before it is cut to its maximal length. *)
Definition uncut_slug (L : Library) (text : pystr) : pystr :=
  strip_by is_hyphen
    (squeeze gap [HYPHEN] false (filter (kept L) (lower L text))).

(** ** Worlds of the examples *)

Definition example_url : pystr := str "https://example.com/page".

(** A page text of 120 characters. *)
Definition long_text : pystr := repeat 120 120%nat.

(** The proxy answers 403 with the reason [Login Page]; the browser
    extracts a page. *)
Definition world_http_403 : World :=
  {| urlopen := fun _ => HTTPError 403 (str "Login Page");
     browse := fun _ => Extracted long_text (str "Example") |}.

(** The proxy answers with a login wall; the browser extracts a page. *)
Definition world_login_wall : World :=
  {| urlopen := fun _ => HttpBody (str "Continue with Google");
     browse := fun _ => Extracted long_text (str "Example") |}.

(** The proxy answers 200 with an empty body. *)
Definition world_empty_body : World :=
  {| urlopen := fun _ => HttpBody [];
     browse := fun _ => NotInstalled |}.

(** The proxy answers with a page that has a heading. *)
Definition world_page : World :=
  {| urlopen := fun _ => HttpBody (str "# Example" ++ [NL] ++ long_text);
     browse := fun _ => NotInstalled |}.

(** The request fails below HTTP. *)
Definition world_unreachable : World :=
  {| urlopen := fun _ => URLError (str "timed out");
     browse := fun _ => NotInstalled |}.

(** What the data model asks of a fetch result: success with no error, or
    failure with an error text and no content. *)
Definition outcome_shape (r : FetchOutcome) : Prop :=
  (success r = true /\ error r = None)
  \/ (success r = false /\ content r = [] /\ exists e, error r = Some e).

(** A line of the bullet-list shape is a line that [list_pattern] matches
    once stripped; [bullet_item] is the item such a line stands for. *)
Definition is_bullet_line (line : pystr) : bool :=
  is_some (re_match list_pattern (strip line)).

Definition bullet_lines (text : pystr) : list pystr :=
  filter is_bullet_line (split_char NL text).

Definition bullet_item (line : pystr) : QueueItem :=
  match re_match list_pattern (strip line) with
  | Some m => {| url := PStr (group_or_empty m 1);
                 note := PStr (group_or_empty m 2) |}
  | None => {| url := PStr []; note := PStr [] |}
  end.

Definition is_dict (v : pyval) : bool :=
  match v with PDict _ => true | _ => false end.

(** The text of the scenario of the list form: two bullet lines, the first
    with a note after an em dash. *)
Definition two_bullets : pystr :=
  str "- https://example.com/a " ++ [EM_DASH] ++ str " first" ++ [NL]
  ++ str "- https://example.com/b".

(** A text whose first line is a URL alone and whose third line is a bullet
    line: both the single-item form and the list form apply to it. *)
Definition url_then_bullet : pystr :=
  str "https://example.com/first" ++ [NL; NL] ++ str "* http://example.com/second".

(** The first instant after the year 9999, the last year of [datetime]. *)
Definition LIMIT : datetime := 253402300800000000%Z.

(** ** Notions used in the statements about the queue runner *)

(** [stamps E J k j ws]: the files [ws] were written one after the other,
    each named by the compact form of a clock reading plus the index of its
    item in seconds, with clock readings numbered from [k] on and item
    indices from [j] on (and below [J]), both strictly increasing. *)
Inductive stamps (E : Env) (J : nat) : nat -> nat -> list (pystr * pystr) -> Prop :=
| stamps_nil k j : stamps E J k j []
| stamps_cons k j k' j' rest text ws :
    (k <= k')%nat -> (j <= j')%nat -> (j' < J)%nat ->
    stamps E J (S k') (S j') ws ->
    stamps E J k j
      ((strftime_compact (add_seconds (now_at E k') (Z.of_nat j')) ++ rest, text)
       :: ws).

(** The clock does not go back, and every timestamp of a batch of [J]
    items lies between 1970 and the end of the year 9999. *)
Definition clock_never_goes_back (E : Env) : Prop :=
  forall k k', (k <= k')%nat -> (now_at E k <= now_at E k')%Z.

Definition clock_in_range (E : Env) (J : nat) : Prop :=
  forall k j, (j < J)%nat ->
    (0 <= add_seconds (now_at E k) (Z.of_nat j) < LIMIT)%Z.

(** A queue file fails entirely when it cannot be read or when its text
    yields no item. *)
Definition fails_entirely (L : Library) (f : DirEntry) : bool :=
  match read_text f with
  | Raise _ => true
  | Ok c => match parse_input_file L c with
            | Ok [] => true
            | _ => false
            end
  end.

(** The filter of line 495, and the entries [unlink] leaves in place. *)
Definition is_queue_file (f : DirEntry) : bool :=
  is_file f && negb (str_eqb (name f) (str ".gitkeep")).

Definition other_name (f e : DirEntry) : bool := negb (str_eqb (name e) (name f)).

(** What one item does to the run state. *)
Definition item_effect (E : Env) (i : nat) (st st' : RunState) : Prop :=
  queue_dir st' = queue_dir st
  /\ files_processed (results st') = files_processed (results st)
  /\ (n_failed (results st) <= n_failed (results st'))%nat
  /\ (clock_reads st <= clock_reads st')%nat
  /\ (written st' = written st
      \/ exists slug text,
           clock_reads st' = S (clock_reads st)
           /\ written st'
              = written st
                ++ [(strftime_compact
                       (add_seconds (now_at E (clock_reads st)) (Z.of_nat i))
                     ++ str "-" ++ slug ++ str ".md", text)]).

(** What the items of one file do to the run state. *)
Definition items_effect (E : Env) (i n : nat) (st st' : RunState) : Prop :=
  queue_dir st' = queue_dir st
  /\ files_processed (results st') = files_processed (results st)
  /\ (n_failed (results st) <= n_failed (results st'))%nat
  /\ (clock_reads st <= clock_reads st')%nat
  /\ exists new, written st' = written st ++ new
                 /\ stamps E (i + n) (clock_reads st) i new.

(** What one queue file does to the run state. *)
Definition file_effect (L : Library) (f : DirEntry) (st st' : RunState) : Prop :=
  (n_failed (results st) <= n_failed (results st'))%nat
  /\ (fails_entirely L f = true -> S (n_failed (results st)) = n_failed (results st'))
  /\ ((queue_dir st' = queue_dir st
       /\ files_processed (results st') = files_processed (results st))
      \/ (fails_entirely L f = false
          /\ queue_dir st' = filter (other_name f) (queue_dir st)
          /\ files_processed (results st')
             = files_processed (results st) ++ [name f])).

(** A clock that stands still, with the proxy serving a page: every fetch
    succeeds with the title [Example]. *)
Definition env_fixed_clock : Env :=
  {| world_at := fun _ => world_page;
     now_at := fun _ => 1793737845123456%Z |}.

(** A clock that advances by a fifth of a second at each reading. *)
Definition env_ticking : Env :=
  {| world_at := fun _ => world_page;
     now_at := fun k => (1793737845123456 + 200000 * Z.of_nat k)%Z |}.



Definition one_url_file (n : string) : DirEntry :=
  {| name := str n; is_file := true; read_text := Ok example_url |}.

Definition two_items : list QueueItem :=
  [ {| url := PStr example_url; note := PStr [] |};
    {| url := PStr example_url; note := PStr [] |} ].

(** ** Notions and examples of the further properties *)

(** [http_url u]: the text [u] is [http://] or [https://] followed by at
    least one character, and has no white space. *)
Definition http_url (u : pystr) : Prop :=
  exists scheme rest,
    u = scheme ++ rest
    /\ (scheme = str "http://" \/ scheme = str "https://")
    /\ rest <> [] /\ forallb not_space rest = true.

(** An item as the text forms produce it: a URL and a note that are texts,
    the URL an [http_url]. *)
Definition text_item (i : QueueItem) : Prop :=
  exists u n, url i = PStr u /\ note i = PStr n /\ http_url u.

(** The item of a JSON object: its [url] and [note], each the empty text
    when the key is missing. *)
Definition dict_item (d : list (pystr * pyval)) : QueueItem :=
  {| url := dict_get d (str "url") (PStr []);
     note := dict_get d (str "note") (PStr []) |}.

Definition quoted (s : string) : pystr := [QUOTE] ++ str s ++ [QUOTE].

(** A JSON array of two objects, the second without a note, and a library
    whose [json.loads] reads it. *)
Definition json_two_objects : pystr :=
  str "[{" ++ quoted "url" ++ str ": " ++ quoted "https://example.com/a"
  ++ str ", " ++ quoted "note" ++ str ": " ++ quoted "first" ++ str "}, {"
  ++ quoted "url" ++ str ": " ++ quoted "https://example.com/b" ++ str "}]".

Definition two_objects : list (list (pystr * pyval)) :=
  [ [ (str "url", PStr (str "https://example.com/a"));
      (str "note", PStr (str "first")) ];
    [ (str "url", PStr (str "https://example.com/b")) ] ].

Definition json_library : Library :=
  {| uni_lower := fun c => [c];
     uni_alnum := fun _ => false;
     json_loads := fun s =>
       if str_eqb s json_two_objects then Loaded (PList (map PDict two_objects))
       else JSONDecodeError;
     urlparse_netloc := fun u => Ok (sample_netloc u) |}.

(** A loaded page of the examples: a title, the turns that every selector
    finds, no main region and no body, and whether the turns appear before
    the time-out. *)
Definition example_page (t : string) (turns : list Element)
           (appears : result unit) : Page :=
  {| page_title := str t;
     query_selector_all := fun _ => turns;
     query_selector := fun _ => None;
     wait_for_selector := fun _ => appears |}.

Definition user_turn : Element :=
  {| inner_text := str "  How do I parse a date?  ";
     author_role := Some (str "user") |}.

Definition assistant_turn : Element :=
  {| inner_text := str "Use datetime.strptime with a format."
                   ++ [NL];
     author_role := Some (str "assistant") |}.



(** The characters of an output file name: word characters, hyphens and
    the dot of the extension. *)
Definition name_char (L : Library) (c : char) : Prop :=
  is_word L c = true \/ c = HYPHEN \/ c = 46.


(** The entries that are left when the files [fs] are deleted. *)
Definition none_of (fs : list DirEntry) (e : DirEntry) : bool :=
  negb (existsb (fun f => str_eqb (name e) (name f)) fs).

(** An environment in which no request succeeds and no browser is there. *)
Definition env_unreachable : Env :=
  {| world_at := fun _ => world_unreachable;
     now_at := fun _ => 1793737845123456%Z |}.

Definition two_urls_file : DirEntry :=
  {| name := str "urls.txt"; is_file := true; read_text := Ok two_bullets |}.

Definition gitkeep : DirEntry :=
  {| name := str ".gitkeep"; is_file := true; read_text := Ok [] |}.

(** [never_fetches L E]: no fetch of the run succeeds. *)
Definition never_fetches (L : Library) (E : Env) : Prop :=
  forall k u r, fst (fetch_url L (world_at E k) u) = Ok r -> success r = false.

(* ================================================================== *)
(** * Part II: properties                                              *)
(* ================================================================== *)

(** ** Texts *)

Lemma startswith_spec (s p : pystr) :
  startswith s p = true <-> exists r, s = p ++ r.
Proof.
  revert s; induction p as [|x p IH]; intros s; simpl.
  - split; [intros _; now exists s | intros _; destruct s; reflexivity].
  - destruct s as [|y s]; simpl.
    + split; [discriminate | intros [r Hr]; discriminate].
    + rewrite andb_true_iff, N.eqb_eq, IH. split.
      * intros [-> [r ->]]. now exists r.
      * intros [r Hr]. injection Hr as -> ->. split; [reflexivity | now exists r].
Qed.

Lemma contains_spec (s t : pystr) :
  contains s t = true <-> substring t s.
Proof.
  unfold substring. induction s as [|c s IH].
  - cbn [contains]. rewrite orb_false_r, startswith_spec. split.
    + intros [r Hr]. exists [], r. exact Hr.
    + intros [a [b H]]. destruct a; [now exists b | discriminate].
  - cbn [contains]. rewrite orb_true_iff, startswith_spec, IH. split.
    + intros [[r Hr] | [a [b H]]].
      * exists [], r. exact Hr.
      * exists (c :: a), b. now rewrite H.
    + intros [a [b H]]. destruct a as [|x a].
      * left. now exists b.
      * right. injection H as _ H. now exists a, b.
Qed.

Lemma contains_false (s t : pystr) :
  contains s t = false <-> ~ substring t s.
Proof.
  rewrite <- contains_spec. destruct (contains s t); split; intros; congruence.
Qed.

Lemma substring_app (t s a b : pystr) :
  substring t s -> substring t (a ++ s ++ b).
Proof.
  intros [x [y ->]]. exists (a ++ x), (y ++ b).
  now rewrite <- !app_assoc.
Qed.

Lemma str_eqb_eq (a b : pystr) : str_eqb a b = true <-> a = b.
Proof.
  revert b; induction a as [|x a IH]; intros [|y b]; simpl;
    try (split; [discriminate | discriminate]); [tauto|].
  rewrite andb_true_iff, N.eqb_eq, IH.
  split; [intros [-> ->]; reflexivity | intros H; injection H; auto].
Qed.

(** ** The matcher on a literal *)

Lemma search_from_lit (ml : bool) (l : pystr) (prev : option char) (s : pystr) :
  is_some (search_from ml (Lit l) prev s) = contains s l.
Proof.
  revert prev; induction s as [|c s IH]; intros prev.
  - cbn. destruct l; reflexivity.
  - cbn [search_from contains]. unfold match_here. cbn [rmatch].
    destruct (startswith (c :: s) l); [reflexivity|].
    cbn [orb]. apply IH.
Qed.

Lemma re_search_lit (l s : pystr) :
  is_some (re_search (Lit l) s) = contains s l.
Proof. apply search_from_lit. Qed.

(** ** The matcher on a repeated class and on the list pattern *)

Section MatcherProperties.
Variable ml : bool.
Variable R : Type.

Lemma before_cons (x : char) (xs : pystr) (prev : option char) :
  before (x :: xs) prev = before xs (Some x).
Proof.
  unfold before. revert x prev. induction xs as [|y xs IH]; intros x prev.
  - reflexivity.
  - cbn [map] in *. change (last (Some x :: Some y :: map Some xs) prev)
      with (last (Some y :: map Some xs) prev).
    rewrite (IH y prev), (IH y (Some x)). reflexivity.
Qed.

Lemma star_longest (p : char -> bool) (k : cont R) (caps : captures)
      (xs rest : pystr) (prev : option char) (v : R) :
  forallb p xs = true -> stops p rest ->
  k (before xs prev) rest caps = Some v ->
  star p k caps prev (xs ++ rest) = Some v.
Proof.
  revert prev. induction xs as [|x xs IH]; intros prev Hxs Hrest Hk.
  - cbn [app]. unfold before in Hk. cbn in Hk.
    destruct rest as [|c rest]; cbn [star]; [exact Hk|].
    cbn in Hrest. rewrite Hrest. exact Hk.
  - cbn [forallb] in Hxs. apply andb_true_iff in Hxs as [Hx Hxs].
    cbn [app star]. rewrite Hx.
    rewrite (IH (Some x) Hxs Hrest); [reflexivity|].
    rewrite <- (before_cons x xs prev). exact Hk.
Qed.

Lemma star_whole (p : char -> bool) (k : cont R) (caps : captures)
      (xs : pystr) (prev : option char) (v : R) :
  forallb p xs = true ->
  k (before xs prev) [] caps = Some v ->
  star p k caps prev xs = Some v.
Proof.
  intros Hxs Hk. rewrite <- (app_nil_r xs) at 1.
  now apply star_longest.
Qed.

Lemma plus_longest (p : char -> bool) (k : cont R) (caps : captures)
      (x : char) (xs rest : pystr) (prev : option char) (v : R) :
  forallb p (x :: xs) = true -> stops p rest ->
  k (before (x :: xs) prev) rest caps = Some v ->
  rmatch ml (Plus p) prev ((x :: xs) ++ rest) caps k = Some v.
Proof.
  intros Hxs Hrest Hk. cbn [forallb] in Hxs.
  apply andb_true_iff in Hxs as [Hx Hxs].
  cbn [app rmatch]. rewrite Hx. apply star_longest; auto.
  rewrite <- (before_cons x xs prev). exact Hk.
Qed.

Lemma startswith_app (l rest : pystr) : startswith (l ++ rest) l = true.
Proof. apply startswith_spec. now exists rest. Qed.

Lemma lit_here (l rest : pystr) (prev : option char) (caps : captures)
      (k : cont R) :
  rmatch ml (Lit l) prev (l ++ rest) caps k = k (before l prev) rest caps.
Proof.
  cbn [rmatch]. rewrite startswith_app, skipn_app, skipn_all, Nat.sub_diag.
  reflexivity.
Qed.

Lemma rmatch_Cat (r1 r2 : regex) (prev : option char) (s : pystr)
      (caps : captures) (k : cont R) :
  rmatch ml (r1 >> r2) prev s caps k
  = rmatch ml r1 prev s caps (fun p s' c => rmatch ml r2 p s' c k).
Proof. reflexivity. Qed.

Lemma rmatch_Group (n : nat) (r : regex) (prev : option char) (s : pystr)
      (caps : captures) (k : cont R) :
  rmatch ml (Group n r) prev s caps k
  = rmatch ml r prev s caps
      (fun p s' c => k p s' ((n, firstn (length s - length s') s) :: c)).
Proof. reflexivity. Qed.

Lemma rmatch_Class (p : char -> bool) (c : char) (prev : option char)
      (s : pystr) (caps : captures) (k : cont R) :
  p c = true -> rmatch ml (Class p) prev (c :: s) caps k = k (Some c) s caps.
Proof. intros H. cbn [rmatch]. now rewrite H. Qed.

Lemma rmatch_Opt_taken (r : regex) (prev : option char) (s : pystr)
      (caps : captures) (k : cont R) (v : R) :
  rmatch ml r prev s caps k = Some v ->
  rmatch ml (Opt r) prev s caps k = Some v.
Proof. intros H. cbn [rmatch]. now rewrite H. Qed.

Lemma rmatch_Opt_skipped (r : regex) (prev : option char) (s : pystr)
      (caps : captures) (k : cont R) :
  rmatch ml r prev s caps k = None ->
  rmatch ml (Opt r) prev s caps k = k prev s caps.
Proof. intros H. cbn [rmatch]. now rewrite H. Qed.

Lemma rmatch_Plus_end (p : char -> bool) (prev : option char)
      (caps : captures) (k : cont R) :
  rmatch ml (Plus p) prev [] caps k = None.
Proof. reflexivity. Qed.

Lemma rmatch_Lit_miss (l s : pystr) (prev : option char)
      (caps : captures) (k : cont R) :
  startswith s l = false -> rmatch ml (Lit l) prev s caps k = None.
Proof. intros H. cbn [rmatch]. now rewrite H. Qed.

Lemma rmatch_Bol_start (s : pystr) (caps : captures) (k : cont R) :
  rmatch ml Bol None s caps k = k None s caps.
Proof. reflexivity. Qed.

Lemma rmatch_Eol_end (prev : option char) (caps : captures) (k : cont R) :
  rmatch ml Eol prev [] caps k = k prev [] caps.
Proof. reflexivity. Qed.

Lemma rmatch_Star (p : char -> bool) (prev : option char) (s : pystr)
      (caps : captures) (k : cont R) :
  rmatch ml (Star p) prev s caps k = star p k caps prev s.
Proof. reflexivity. Qed.

End MatcherProperties.

Lemma firstn_consumed {A} (a b : list A) :
  firstn (length (a ++ b) - length b) (a ++ b) = a.
Proof.
  rewrite length_app, Nat.add_sub, firstn_app, Nat.sub_diag, firstn_all.
  cbn. apply app_nil_r.
Qed.


Section BulletShape.
Variable R : Type.

(** [https?://\S+] reads a scheme and the longest text without white
    space after it. *)
Lemma url_shape_longest (scheme u rest : pystr) (prev : option char)
      (caps : captures) (k : cont R) (v : R) :
  scheme = str "http://" \/ scheme = str "https://" ->
  u <> [] -> forallb not_space u = true -> stops not_space rest ->
  k (before u (Some 47)) rest caps = Some v ->
  rmatch false url_shape prev (scheme ++ u ++ rest) caps k = Some v.
Proof.
  intros Hs Hu Fu Hrest Hk. destruct u as [|c u]; [congruence|].
  assert (Tail : forall prev',
             rmatch false (Lit (str "://") >> Plus not_space) prev'
                    (str "://" ++ (c :: u) ++ rest) caps k = Some v).
  { intros prev'. rewrite rmatch_Cat, lit_here.
    apply plus_longest; auto. }
  unfold url_shape. rewrite rmatch_Cat.
  destruct Hs as [-> | ->].
  - change (str "http://" ++ (c :: u) ++ rest)
      with (str "http" ++ str "://" ++ (c :: u) ++ rest).
    rewrite lit_here, rmatch_Cat, rmatch_Opt_skipped.
    + apply Tail.
    + apply rmatch_Lit_miss. reflexivity.
  - change (str "https://" ++ (c :: u) ++ rest)
      with (str "http" ++ str "s" ++ str "://" ++ (c :: u) ++ rest).
    rewrite lit_here, rmatch_Cat. apply rmatch_Opt_taken.
    rewrite lit_here. apply Tail.
Qed.

Lemma url_shape_whole (scheme u : pystr) (prev : option char)
      (caps : captures) (k : cont R) (v : R) :
  scheme = str "http://" \/ scheme = str "https://" ->
  u <> [] -> forallb not_space u = true ->
  k (before u (Some 47)) [] caps = Some v ->
  rmatch false url_shape prev (scheme ++ u) caps k = Some v.
Proof.
  intros Hs Hu Fu Hk. rewrite <- (app_nil_r u) at 1.
  now apply url_shape_longest.
Qed.

End BulletShape.

Lemma firstn_whole {A} (l : list A) : firstn (length l - length (@nil A)) l = l.
Proof. cbn [length]. rewrite Nat.sub_0_r. apply firstn_all. Qed.

Lemma dash_not_space (d : char) : dash d = true -> isspace d = false.
Proof.
  unfold dash. rewrite !orb_true_iff, !N.eqb_eq.
  intros [[-> | ->] | ->]; reflexivity.
Qed.

Lemma scheme_not_space (scheme rest : pystr) :
  scheme = str "http://" \/ scheme = str "https://" ->
  stops isspace (scheme ++ rest).
Proof. intros [-> | ->]; reflexivity. Qed.

(** A bullet, white space and a URL: the line is matched, with the URL as
    group 1 and no group 2. *)
Lemma bullet_line_plain (b : char) (ws scheme u : pystr) :
  bullet b = true -> ws <> [] -> forallb isspace ws = true ->
  scheme = str "http://" \/ scheme = str "https://" ->
  u <> [] -> forallb not_space u = true ->
  re_match list_pattern (b :: ws ++ scheme ++ u)
  = Some {| group0 := b :: ws ++ scheme ++ u;
            groups := [(1%nat, scheme ++ u)];
            after := [] |}.
Proof.
  intros Hb Hws Fws Hs Hu Fu.
  destruct ws as [|w ws]; [congruence|].
  unfold re_match, match_here, list_pattern.
  rewrite rmatch_Cat, rmatch_Bol_start, rmatch_Cat, rmatch_Class by exact Hb.
  rewrite rmatch_Cat.
  apply plus_longest; [exact Fws | now apply scheme_not_space |].
  rewrite rmatch_Cat, rmatch_Group.
  apply url_shape_whole; [exact Hs | exact Hu | exact Fu |].
  rewrite rmatch_Cat, rmatch_Opt_skipped
    by (rewrite rmatch_Cat; apply rmatch_Plus_end).
  rewrite rmatch_Eol_end.
  rewrite !firstn_whole, ?app_nil_r. reflexivity.
Qed.

(** A bullet, white space, a URL, white space, a dash, white space and a
    note: the line is matched, with the URL as group 1 and the note as
    group 2. *)
Lemma bullet_line_noted (b d : char) (ws scheme u ws1 ws2 note : pystr) :
  bullet b = true -> ws <> [] -> forallb isspace ws = true ->
  scheme = str "http://" \/ scheme = str "https://" ->
  u <> [] -> forallb not_space u = true ->
  ws1 <> [] -> forallb isspace ws1 = true -> dash d = true ->
  ws2 <> [] -> forallb isspace ws2 = true ->
  stops isspace note -> forallb not_newline note = true ->
  re_match list_pattern (b :: ws ++ scheme ++ u ++ ws1 ++ d :: ws2 ++ note)
  = Some {| group0 := b :: ws ++ scheme ++ u ++ ws1 ++ d :: ws2 ++ note;
            groups := [(2%nat, note); (1%nat, scheme ++ u)];
            after := [] |}.
Proof.
  intros Hb Hws Fws Hs Hu Fu H1 F1 Hd H2 F2 Sn Fn.
  destruct ws as [|w ws]; [congruence|].
  destruct ws1 as [|w1 ws1]; [congruence|].
  destruct ws2 as [|w2 ws2]; [congruence|].
  unfold re_match, match_here, list_pattern.
  rewrite rmatch_Cat, rmatch_Bol_start, rmatch_Cat, rmatch_Class by exact Hb.
  rewrite rmatch_Cat.
  apply plus_longest; [exact Fws | now apply scheme_not_space |].
  rewrite rmatch_Cat, rmatch_Group.
  apply url_shape_longest; [exact Hs | exact Hu | exact Fu | |].
  { cbn [app stops]. unfold not_space.
    cbn [forallb] in F1. apply andb_true_iff in F1 as [-> _]. reflexivity. }
  rewrite rmatch_Cat. apply rmatch_Opt_taken.
  rewrite rmatch_Cat.
  apply plus_longest; [exact F1 | cbn [stops]; now apply dash_not_space |].
  rewrite rmatch_Cat, rmatch_Class by exact Hd.
  rewrite rmatch_Cat.
  apply plus_longest; [exact F2 | exact Sn |].
  rewrite rmatch_Group, rmatch_Star.
  apply star_whole; [exact Fn|].
  rewrite rmatch_Eol_end.
  rewrite !firstn_whole, ?app_nil_r.
  rewrite (app_assoc scheme u), firstn_consumed. reflexivity.
Qed.

(** ** Stripping *)

Lemma lstrip_by_stops (p : char -> bool) (s : pystr) :
  stops p s -> lstrip_by p s = s.
Proof. destruct s as [|c s]; cbn; [reflexivity | now intros ->]. Qed.

Lemma strip_by_fixed (p : char -> bool) (s : pystr) :
  stops p s -> stops p (rev s) -> strip_by p s = s.
Proof.
  intros H1 H2. unfold strip_by, rstrip_by.
  rewrite (lstrip_by_stops _ _ H1), (lstrip_by_stops _ _ H2).
  apply rev_involutive.
Qed.

Lemma stops_rev_tail (p : char -> bool) (a b : pystr) :
  b <> [] -> forallb (fun c => negb (p c)) b = true -> stops p (rev (a ++ b)).
Proof.
  intros Hb Fb. rewrite rev_app_distr.
  destruct (rev b) as [|c r] eqn:E.
  - apply (f_equal (@rev _)) in E. rewrite rev_involutive in E. now elim Hb.
  - cbn. assert (In c b) by (apply in_rev; rewrite E; now left).
    rewrite forallb_forall in Fb. apply negb_true_iff. now apply Fb.
Qed.

Lemma bullet_not_space (b : char) : bullet b = true -> isspace b = false.
Proof.
  unfold bullet. rewrite orb_true_iff, !N.eqb_eq. intros [-> | ->]; reflexivity.
Qed.

(** The item of a plain bullet line. *)
Lemma bullet_item_plain (b : char) (ws scheme u : pystr) :
  bullet b = true -> ws <> [] -> forallb isspace ws = true ->
  scheme = str "http://" \/ scheme = str "https://" ->
  u <> [] -> forallb not_space u = true ->
  is_bullet_line (b :: ws ++ scheme ++ u) = true
  /\ bullet_item (b :: ws ++ scheme ++ u)
     = {| url := PStr (scheme ++ u); note := PStr [] |}.
Proof.
  intros Hb Hws Fws Hs Hu Fu.
  assert (S : strip (b :: ws ++ scheme ++ u) = b :: ws ++ scheme ++ u).
  { apply strip_by_fixed; [now apply bullet_not_space|].
    change (b :: ws ++ scheme ++ u) with ((b :: ws) ++ scheme ++ u).
    rewrite !app_assoc. now apply stops_rev_tail. }
  unfold is_bullet_line, bullet_item.
  rewrite S, (@bullet_line_plain b ws scheme u Hb Hws Fws Hs Hu Fu).
  split; reflexivity.
Qed.

(** The item of a bullet line with a note. *)
Lemma bullet_item_noted (b d : char) (ws scheme u ws1 ws2 note : pystr) :
  bullet b = true -> ws <> [] -> forallb isspace ws = true ->
  scheme = str "http://" \/ scheme = str "https://" ->
  u <> [] -> forallb not_space u = true ->
  ws1 <> [] -> forallb isspace ws1 = true -> dash d = true ->
  ws2 <> [] -> forallb isspace ws2 = true ->
  note <> [] -> stops isspace note -> stops isspace (rev note) ->
  forallb not_newline note = true ->
  is_bullet_line (b :: ws ++ scheme ++ u ++ ws1 ++ d :: ws2 ++ note) = true
  /\ bullet_item (b :: ws ++ scheme ++ u ++ ws1 ++ d :: ws2 ++ note)
     = {| url := PStr (scheme ++ u); note := PStr note |}.
Proof.
  intros Hb Hws Fws Hs Hu Fu H1 F1 Hd H2 F2 Hn Sn Rn Fn.
  set (line := b :: ws ++ scheme ++ u ++ ws1 ++ d :: ws2 ++ note).
  assert (S : strip line = line).
  { apply strip_by_fixed; [now apply bullet_not_space|].
    subst line.
    change (b :: ws ++ scheme ++ u ++ ws1 ++ d :: ws2 ++ note)
      with ((b :: ws) ++ scheme ++ u ++ ws1 ++ (d :: ws2) ++ note).
    rewrite !app_assoc, rev_app_distr.
    destruct (rev note) as [|c r] eqn:E; [|exact Rn].
    apply (f_equal (@rev _)) in E. rewrite rev_involutive in E. now elim Hn. }
  unfold is_bullet_line, bullet_item. rewrite S. subst line.
  rewrite (@bullet_line_noted b d ws scheme u ws1 ws2 note
             Hb Hws Fws Hs Hu Fu H1 F1 Hd H2 F2 Sn Fn).
  split; reflexivity.
Qed.

Section ProgramProperties.
Variable L : Library.

(** ** Lower case *)

Lemma lower_app (a b : pystr) : lower L (a ++ b) = lower L a ++ lower L b.
Proof. unfold lower. apply flat_map_app. Qed.

Lemma substring_lower (t s : pystr) :
  substring t s -> substring (lower L t) (lower L s).
Proof.
  intros [a [b ->]]. exists (lower L a), (lower L b).
  now rewrite !lower_app.
Qed.

(** ** needs_js_rendering *)

(** C5.  [needs_js_rendering] is a function of the URL alone, true exactly
    for the URLs in which [claude.ai/share/], [chatgpt.com/share/] or
    [chat.openai.com/share/] occurs, and so false for every other URL. *)
Theorem needs_js_rendering_iff (url : pystr) :
  needs_js_rendering url = true <->
  substring (str "claude.ai/share/") url
  \/ substring (str "chatgpt.com/share/") url
  \/ substring (str "chat.openai.com/share/") url.
Proof.
  unfold needs_js_rendering, JS_REQUIRED_PATTERNS. cbn [existsb].
  rewrite !re_search_lit, orb_false_r, !orb_true_iff, !contains_spec.
  tauto.
Qed.

(** ** is_login_page and is_cloudflare_challenge *)

Lemma is_login_page_true (content ind : pystr) :
  In ind LOGIN_PAGE_INDICATORS -> substring ind content ->
  is_login_page content = true.
Proof.
  intros Hin Hsub. unfold is_login_page. apply existsb_exists.
  exists ind. split; [exact Hin | now apply contains_spec].
Qed.

Lemma cloudflare_matches_In (content ind : pystr) :
  In ind (cloudflare_matches L content) <->
  In ind CLOUDFLARE_INDICATORS /\ occurs_ci L ind content.
Proof.
  unfold cloudflare_matches, occurs_ci.
  rewrite filter_In, contains_spec. reflexivity.
Qed.

Lemma CLOUDFLARE_INDICATORS_NoDup : NoDup CLOUDFLARE_INDICATORS.
Proof.
  unfold CLOUDFLARE_INDICATORS.
  repeat (constructor; [cbn; intuition discriminate|]). constructor.
Qed.

Lemma two_members {A} (l : list A) (a b : A) :
  In a l -> In b l -> a <> b -> (2 <= length l)%nat.
Proof.
  destruct l as [|x [|y l]]; cbn; intros Ha Hb Hab.
  - contradiction.
  - destruct Ha as [<-|[]], Hb as [<-|[]]. now elim Hab.
  - lia.
Qed.

(** C4.  The login-wall test is true as soon as one of its phrases occurs
    in the text, so a single [Sign up] is enough; the Cloudflare test is
    false when exactly one of its phrases occurs (case-insensitively) and
    true when two different phrases occur, case-insensitively or as they
    are written. *)
Theorem validators_fire (content : pystr) :
  (forall ind, In ind LOGIN_PAGE_INDICATORS -> substring ind content ->
               is_login_page content = true)
  /\ (substring (str "Sign up") content -> is_login_page content = true)
  /\ ((exists ind, In ind CLOUDFLARE_INDICATORS /\ occurs_ci L ind content
        /\ forall ind', In ind' CLOUDFLARE_INDICATORS ->
                        occurs_ci L ind' content -> ind' = ind) ->
      is_cloudflare_challenge L content = false)
  /\ (forall i j, In i CLOUDFLARE_INDICATORS -> In j CLOUDFLARE_INDICATORS ->
                  i <> j -> occurs_ci L i content -> occurs_ci L j content ->
                  is_cloudflare_challenge L content = true)
  /\ (forall i j, In i CLOUDFLARE_INDICATORS -> In j CLOUDFLARE_INDICATORS ->
                  i <> j -> substring i content -> substring j content ->
                  is_cloudflare_challenge L content = true).
Proof.
  assert (Htwo : forall i j,
             In i CLOUDFLARE_INDICATORS -> In j CLOUDFLARE_INDICATORS ->
             i <> j -> occurs_ci L i content -> occurs_ci L j content ->
             is_cloudflare_challenge L content = true).
  { intros i j Hi Hj Hij Oi Oj. unfold is_cloudflare_challenge.
    apply Nat.leb_le. apply (@two_members _ _ i j); auto;
      apply cloudflare_matches_In; auto. }
  split; [|split; [|split; [|split]]].
  - intros ind; apply is_login_page_true.
  - apply is_login_page_true. cbn; tauto.
  - intros [ind [Hin [Hocc Huniq]]].
    unfold is_cloudflare_challenge. apply Nat.leb_gt.
    assert (ND : NoDup (cloudflare_matches L content))
      by (apply NoDup_filter, CLOUDFLARE_INDICATORS_NoDup).
    destruct (cloudflare_matches L content) as [|x [|y rest]] eqn:E;
      cbn; try lia.
    assert (Hx : In x (cloudflare_matches L content)) by (rewrite E; cbn; auto).
    assert (Hy : In y (cloudflare_matches L content)) by (rewrite E; cbn; auto).
    apply cloudflare_matches_In in Hx as [Hx1 Hx2].
    apply cloudflare_matches_In in Hy as [Hy1 Hy2].
    apply Huniq in Hx2, Hy2; auto. subst x y.
    inversion ND as [|? ? Hnotin _]. elim Hnotin. cbn; auto.
  - exact Htwo.
  - intros i j Hi Hj Hij Si Sj.
    apply (Htwo i j); auto; apply substring_lower; assumption.
Qed.

(** ** The fetchers *)

Lemma failed_shape (msg : pystr) : outcome_shape (failed msg).
Proof. right. cbn. eauto. Qed.

Lemma fetched_shape (t c : pystr) : outcome_shape (fetched t c).
Proof. left. cbn. auto. Qed.

Lemma fetch_via_jina_cases (W : World) (url : pystr) :
  (exists msg, fetch_via_jina L W url = failed msg)
  \/ (exists t body, fetch_via_jina L W url = fetched t body
                     /\ urlopen W (JINA_READER_PREFIX ++ url) = HttpBody body).
Proof.
  unfold fetch_via_jina.
  destruct (urlopen W (JINA_READER_PREFIX ++ url)) as [body|code reason|reason|msg];
    eauto.
  destruct (is_login_page body); eauto.
  destruct (re_search_multiline title_pattern body); eauto.
  destruct (urlparse_netloc L url); eauto.
Qed.

Lemma fetch_via_playwright_cases (W : World) (url : pystr) :
  (exists msg, msg <> [] /\ fetch_via_playwright L W url = failed msg)
  \/ (exists t c, c <> [] /\ fetch_via_playwright L W url = fetched t c).
Proof.
  unfold fetch_via_playwright.
  destruct (browse W url) as [|msg|c t].
  - left. eexists. split; [|reflexivity]. discriminate.
  - left. eexists. split; [|reflexivity]. discriminate.
  - destruct c as [|x c].
    + left. eexists. split; [|reflexivity]. discriminate.
    + cbn [orb]. destruct (length (strip (x :: c)) <? 100)%nat.
      * left. eexists. split; [|reflexivity]. discriminate.
      * destruct (is_cloudflare_challenge L (x :: c) || str_eqb t (str "Just a moment...")).
        -- left. eexists. split; [|reflexivity]. discriminate.
        -- right. exists t, (x :: c). split; [discriminate | reflexivity].
Qed.

Lemma fetch_via_jina_failure (W : World) (url : pystr) :
  success (fetch_via_jina L W url) = false ->
  exists err, fetch_via_jina L W url = failed err.
Proof.
  intros H. destruct (fetch_via_jina_cases W url) as [[msg E]|[t [b [E _]]]].
  - eauto.
  - rewrite E in H. discriminate.
Qed.

(** ** fetch_url *)

(** C1, as the code has it.  A URL that needs rendering goes to the rendered
    fetcher alone.  Any other URL goes to the proxy fetcher, whose success
    is returned.  When the proxy fetcher failed, the rendered fetcher is
    tried if the error text in lower case contains [login page] (so the
    words match in any letter case) or the error text contains
    [JS rendering]; otherwise the proxy failure is returned as it is and the
    rendered fetcher is not called. *)
Theorem fetch_url_decision (W : World) (url : pystr) :
  (needs_js_rendering url = true ->
   fetch_url L W url
   = (Ok (fetch_via_playwright L W url), [Call_fetch_via_playwright url]))
  /\ (needs_js_rendering url = false ->
      success (fetch_via_jina L W url) = true ->
      fetch_url L W url
      = (Ok (fetch_via_jina L W url), [Call_fetch_via_jina url]))
  /\ (forall err,
      needs_js_rendering url = false ->
      fetch_via_jina L W url = failed err ->
      substring (str "login page") (lower L err)
      \/ substring (str "JS rendering") err ->
      fetch_url L W url
      = (Ok (fetch_via_playwright L W url),
         [Call_fetch_via_jina url; Call_fetch_via_playwright url]))
  /\ (forall err,
      needs_js_rendering url = false ->
      fetch_via_jina L W url = failed err ->
      ~ substring (str "login page") (lower L err) ->
      ~ substring (str "JS rendering") err ->
      fetch_url L W url = (Ok (failed err), [Call_fetch_via_jina url])).
Proof.
  unfold fetch_url. repeat split.
  - intros ->. reflexivity.
  - intros -> Hs. cbn. rewrite Hs. reflexivity.
  - intros err -> E Hlog. cbn. rewrite E. cbn.
    replace (login_page_error L err) with true; [reflexivity|].
    symmetry. unfold login_page_error. apply orb_true_iff.
    rewrite !contains_spec. exact Hlog.
  - intros err -> E H1 H2. cbn. rewrite E. cbn.
    replace (login_page_error L err) with false; [reflexivity|].
    symmetry. unfold login_page_error. apply orb_false_iff.
    rewrite !contains_false. auto.
Qed.

(** [fetch_url] does not raise on a text. *)
Lemma fetch_url_returns (W : World) (url : pystr) :
  exists r, fst (fetch_url L W url) = Ok r
            /\ (r = fetch_via_jina L W url \/ r = fetch_via_playwright L W url).
Proof.
  destruct (fetch_url_decision W url) as [H1 [H2 [H3 H4]]].
  destruct (needs_js_rendering url) eqn:N.
  - rewrite H1 by reflexivity. cbn. eauto.
  - destruct (success (fetch_via_jina L W url)) eqn:S.
    + rewrite H2 by reflexivity. cbn. eauto.
    + destruct (fetch_via_jina_failure _ _ S) as [err E].
      destruct (login_page_error L err) eqn:P.
      * unfold login_page_error in P. apply orb_true_iff in P.
        rewrite !contains_spec in P.
        rewrite (H3 err) by auto. cbn. eauto.
      * unfold login_page_error in P. apply orb_false_iff in P.
        rewrite !contains_false in P. destruct P as [P1 P2].
        rewrite (H4 err) by auto. cbn. rewrite <- E. eauto.
Qed.

(** C2, as the code has it.  For a URL that does not need rendering and
    whose proxy response contains [Continue with Google], the proxy fetcher
    fails with the login-page error, the rendered fetcher is then called,
    and [fetch_url] returns what the rendered fetcher returns. *)
Theorem login_wall_falls_back (W : World) (url body : pystr) :
  needs_js_rendering url = false ->
  urlopen W (JINA_READER_PREFIX ++ url) = HttpBody body ->
  substring (str "Continue with Google") body ->
  fetch_via_jina L W url
  = failed (str "Got login page instead of content (JS rendering required)")
  /\ fetch_url L W url
     = (Ok (fetch_via_playwright L W url),
        [Call_fetch_via_jina url; Call_fetch_via_playwright url]).
Proof.
  intros N U Hsub.
  assert (E : fetch_via_jina L W url
              = failed (str "Got login page instead of content (JS rendering required)")).
  { unfold fetch_via_jina. rewrite U.
    rewrite (@is_login_page_true body (str "Continue with Google"));
      [reflexivity | cbn; tauto | exact Hsub]. }
  split; [exact E|].
  destruct (fetch_url_decision W url) as [_ [_ [H3 _]]].
  apply (H3 _ N E). right. apply contains_spec. reflexivity.
Qed.

(** C3, as the code has it.  Every result of the two fetchers and of
    [fetch_url] is a success with no error, or a failure with an error text,
    an empty content and an empty title.  A success of the rendered fetcher
    has a content that is not empty and its failures have an error that is
    not empty.  The proxy fetcher returns the response body as content, empty
    or not, and its error is empty only when it is the text of an exception
    that is itself empty. *)
Theorem fetch_outcome_shape (W : World) (url : pystr) :
  outcome_shape (fetch_via_jina L W url)
  /\ outcome_shape (fetch_via_playwright L W url)
  /\ (exists r, fst (fetch_url L W url) = Ok r /\ outcome_shape r)
  /\ (success (fetch_via_playwright L W url) = true ->
      content (fetch_via_playwright L W url) <> [])
  /\ (success (fetch_via_playwright L W url) = false ->
      error (fetch_via_playwright L W url) <> Some []
      /\ title (fetch_via_playwright L W url) = [])
  /\ (success (fetch_via_jina L W url) = true ->
      urlopen W (JINA_READER_PREFIX ++ url)
      = HttpBody (content (fetch_via_jina L W url)))
  /\ (success (fetch_via_jina L W url) = false ->
      title (fetch_via_jina L W url) = []
      /\ (error (fetch_via_jina L W url) = Some [] ->
          urlopen W (JINA_READER_PREFIX ++ url) = HttpException []
          \/ exists e, urlparse_netloc L url = Raise e /\ exn_msg e = [])).
Proof.
  assert (J : outcome_shape (fetch_via_jina L W url)).
  { destruct (fetch_via_jina_cases W url) as [[m ->]|[t [b [-> _]]]];
      [apply failed_shape | apply fetched_shape]. }
  assert (P : outcome_shape (fetch_via_playwright L W url)).
  { destruct (fetch_via_playwright_cases W url) as [[m [_ ->]]|[t [c [_ ->]]]];
      [apply failed_shape | apply fetched_shape]. }
  split; [exact J|]. split; [exact P|]. split.
  { destruct (fetch_url_returns W url) as [r [E [-> | ->]]]; eauto. }
  split; [|split; [|split]].
  - destruct (fetch_via_playwright_cases W url) as [[m [_ ->]]|[t [c [Hc ->]]]];
      cbn; [discriminate | auto].
  - destruct (fetch_via_playwright_cases W url) as [[m [Hm ->]]|[t [c [_ ->]]]];
      cbn; [|discriminate].
    intros _. split; [congruence | reflexivity].
  - destruct (fetch_via_jina_cases W url) as [[m ->]|[t [b [-> U]]]];
      cbn; [discriminate | auto].
  - intros S. split.
    + destruct (fetch_via_jina_failure _ _ S) as [err ->]. reflexivity.
    + revert S. unfold fetch_via_jina.
      destruct (urlopen W (JINA_READER_PREFIX ++ url)) as [body|code reason|reason|msg].
      * destruct (is_login_page body); [cbn; discriminate|].
        destruct (re_search_multiline title_pattern body); [cbn; discriminate|].
        destruct (urlparse_netloc L url) as [n|e] eqn:U; [cbn; discriminate|].
        cbn. intros _ H. right. exists e. split; [reflexivity | congruence].
      * cbn. discriminate.
      * cbn. discriminate.
      * cbn. intros _ H. left. congruence.
Qed.

(** ** parse_input_file *)

Lemma list_item_bullet (line : pystr) :
  list_item line = if is_bullet_line line then [bullet_item line] else [].
Proof.
  unfold list_item, is_bullet_line, bullet_item.
  destruct (re_match list_pattern (strip line)); reflexivity.
Qed.

Lemma list_items_bullet_lines (lines : list pystr) :
  list_items lines = map bullet_item (filter is_bullet_line lines).
Proof.
  induction lines as [|line lines IH]; [reflexivity|].
  cbn [list_items flat_map filter]. fold (list_items lines).
  rewrite IH, list_item_bullet.
  destruct (is_bullet_line line); reflexivity.
Qed.


(** The two scenario texts, for any library. *)
Lemma parse_two_bullets :
  parse_input_file L two_bullets
  = Ok [ {| url := PStr (str "https://example.com/a"); note := PStr (str "first") |};
         {| url := PStr (str "https://example.com/b"); note := PStr [] |} ].
Proof. vm_compute. reflexivity. Qed.

Lemma parse_url_then_bullet :
  parse_input_file L url_then_bullet
  = Ok [ {| url := PStr (str "http://example.com/second"); note := PStr [] |} ].
Proof. vm_compute. reflexivity. Qed.

Lemma mapM_item_of_raises (data : list pyval) :
  existsb (fun item => negb (is_dict item)) data = true ->
  exists item, In item data /\ is_dict item = false
               /\ mapM item_of data = Raise (AttributeError item "get").
Proof.
  induction data as [|v data IH]; [discriminate|].
  cbn [existsb]. intros H.
  destruct (is_dict v) eqn:D.
  - cbn [negb orb] in H. destruct (IH H) as [item [Hin [Hd E]]].
    exists item. split; [right; exact Hin|]. split; [exact Hd|].
    destruct v; try discriminate. cbn. rewrite E. reflexivity.
  - exists v. split; [left; reflexivity|]. split; [exact D|].
    destruct v; try discriminate; reflexivity.
Qed.

(** C7 fails on the code.  A text that [json.loads] reads as a list with an
    element that is not an object is not passed on to the list form:
    [item.get] raises AttributeError, which line 75 does not catch, and
    [parse_input_file] raises it. *)
Theorem parse_input_file_raises (content : pystr) (data : list pyval) :
  startswith (strip content) (str "[") = true ->
  json_loads L (strip content) = Loaded (PList data) ->
  existsb (fun item => negb (is_dict item)) data = true ->
  exists item, In item data /\ is_dict item = false
               /\ parse_input_file L content = Raise (AttributeError item "get").
Proof.
  intros HS HJ HD.
  destruct (mapM_item_of_raises _ HD) as [item [Hin [Hd E]]].
  exists item. split; [exact Hin|]. split; [exact Hd|].
  unfold parse_input_file.
  destruct (strip content) as [|c text] eqn:S; [discriminate|].
  unfold json_form. rewrite HS, orb_true_r, HJ. exact E.
Qed.

(** Outside that case [parse_input_file] returns: it raises only from
    inside the structured form. *)
Lemma parse_input_file_returns (content : pystr) :
  (forall e, json_form L (strip content) <> Some (Raise e)) ->
  exists items, parse_input_file L content = Ok items.
Proof.
  intros H. unfold parse_input_file.
  destruct (strip content) as [|c text]; [eauto|].
  destruct (json_form L (c :: text)) as [[items|e]|].
  - eauto.
  - elim (H e). reflexivity.
  - destruct (list_items (split_char NL (c :: text))); eauto.
Qed.

(** ** slugify *)

(** C8 fails on the code.  The slug is cut to 50 characters after its
    hyphens were trimmed, so a title of 49 letters, a space and a letter
    gets a slug that ends with a hyphen; and [\w] keeps the underscore,
    which is no letter or digit. *)
Theorem slugify_trailing_hyphen_and_underscore :
  slugify L (repeat 97 49%nat ++ str " b") 50 = repeat 97 49%nat ++ str "-"
  /\ slugify L (str "a_b") 50 = str "a_b".
Proof. split; vm_compute; reflexivity. Qed.

Lemma slugify_length (text : pystr) (max_length : nat) :
  (length (slugify L text max_length) <= max_length)%nat.
Proof. unfold slugify. apply firstn_le_length. Qed.

Lemma slugify_hello_world : slugify L (str "Hello, World!") 50 = str "hello-world".
Proof. vm_compute. reflexivity. Qed.

(** The file written for the title [Hello, World!] and no note: the slug
    is [hello-world], the block has the title line and no [source_note]
    line.  With a note, the line is there with its quotes escaped. *)
Lemma output_file_hello_world (url content : pystr) (timestamp : datetime) :
  output_file L url (str "Hello, World!") content (PStr []) timestamp
  = Ok (strftime_compact timestamp ++ str "-hello-world.md",
        (str "---" ++ [NL]
         ++ str "url: " ++ url ++ [NL]
         ++ str "title: Hello, World!" ++ [NL]
         ++ str "fetched_at: " ++ isoformat timestamp ++ [NL]
         ++ str "---" ++ [NL; NL]) ++ content).
Proof.
  unfold output_file, title_slug. cbn [str map list_ascii_of_string bind].
  change (slugify L _ 50) with (slugify L (str "Hello, World!") 50).
  rewrite slugify_hello_world. cbn [source_note_line truthy bind].
  unfold frontmatter_head. rewrite <- !app_assoc. reflexivity.
Qed.

Lemma source_note_line_empty : source_note_line (PStr []) = Ok [].
Proof. reflexivity. Qed.

Lemma source_note_line_text (c : char) (n : pystr) :
  source_note_line (PStr (c :: n))
  = Ok (str "source_note: " ++ [QUOTE]
        ++ replace_char QUOTE [BACKSLASH; QUOTE] (c :: n) ++ [QUOTE; NL]).
Proof. reflexivity. Qed.

Lemma source_note_line_quote :
  source_note_line (PStr (str "say " ++ [QUOTE] ++ str "hi" ++ [QUOTE]))
  = Ok (str "source_note: " ++ [QUOTE] ++ str "say "
        ++ [BACKSLASH; QUOTE] ++ str "hi" ++ [BACKSLASH; QUOTE]
        ++ [QUOTE; NL]).
Proof. reflexivity. Qed.

End ProgramProperties.

(** ** Dates and their compact form *)

Section Dates.
Local Open Scope Z_scope.

Lemma zfill_length (w : nat) (n : Z) : length (zfill w n) = w.
Proof.
  revert n; induction w as [|w IH]; intros n; cbn [zfill]; [reflexivity|].
  rewrite length_app, IH. cbn. lia.
Qed.

Lemma digit_inj (n m : Z) : digit n = digit m -> n mod 10 = m mod 10.
Proof.
  unfold digit. intros H.
  pose proof (Z.mod_pos_bound n 10 ltac:(lia)).
  pose proof (Z.mod_pos_bound m 10 ltac:(lia)).
  lia.
Qed.

Lemma zfill_inj (w : nat) (n m : Z) :
  zfill w n = zfill w m -> n mod 10 ^ Z.of_nat w = m mod 10 ^ Z.of_nat w.
Proof.
  revert n m; induction w as [|w IH]; intros n m H.
  - cbn. now rewrite !Z.mod_1_r.
  - cbn [zfill] in H. apply app_inj_tail in H as [H1 H2].
    apply IH in H1. apply digit_inj in H2.
    rewrite Nat2Z.inj_succ, Z.pow_succ_r by lia.
    rewrite !Z.rem_mul_r by lia. lia.
Qed.

Lemma zfill_inj_bounded (w : nat) (n m : Z) :
  0 <= n < 10 ^ Z.of_nat w -> 0 <= m < 10 ^ Z.of_nat w ->
  zfill w n = zfill w m -> n = m.
Proof.
  intros Hn Hm H. apply zfill_inj in H.
  rewrite !Z.mod_small in H by assumption. exact H.
Qed.

Lemma app_inv_length {A} (a b x y : list A) :
  length a = length b -> a ++ x = b ++ y -> a = b /\ x = y.
Proof.
  revert b; induction a as [|c a IH]; intros [|e b] HL H; try discriminate.
  - auto.
  - cbn in H. injection H as -> H. injection HL as HL.
    destruct (IH b HL H) as [-> ->]. auto.
Qed.

Lemma civil_from_days_range (z : Z) :
  let '(y, m, d) := civil_from_days z in
  1 <= m <= 12 /\ 1 <= d <= 31.
Proof.
  unfold civil_from_days.
  set (z' := z + 719468). set (era := z' / 146097).
  set (doe := z' - era * 146097).
  assert (Hdoe : 0 <= doe < 146097) by (subst doe era; Z.div_mod_to_equations; lia).
  clearbody doe. clear z' era.
  set (yoe := (doe - doe / 1460 + doe / 36524 - doe / 146096) / 365).
  set (doy := doe - (365 * yoe + yoe / 4 - yoe / 100)).
  assert (Hdoy : 0 <= doy <= 365) by (subst doy yoe; Z.div_mod_to_equations; lia).
  clearbody doy.
  set (mp := (5 * doy + 2) / 153).
  assert (Hmp : 0 <= mp <= 11) by (subst mp; Z.div_mod_to_equations; lia).
  assert (Hd : 1 <= doy - (153 * mp + 2) / 5 + 1 <= 31)
    by (subst mp; Z.div_mod_to_equations; lia).
  clearbody mp.
  destruct (mp <? 10) eqn:E; [apply Z.ltb_lt in E | apply Z.ltb_ge in E]; lia.
Qed.

Lemma civil_from_days_year (z : Z) :
  0 <= z <= 2932896 ->
  let '(y, m, d) := civil_from_days z in 1600 <= y <= 9999.
Proof.
  intros Hz. unfold civil_from_days.
  set (z' := z + 719468). set (era := z' / 146097).
  set (doe := z' - era * 146097).
  assert (Hdoe : 0 <= doe < 146097) by (subst doe era; Z.div_mod_to_equations; lia).
  assert (Hera : 4 <= era <= 24) by (subst era z'; Z.div_mod_to_equations; lia).
  assert (H24 : era = 24 -> doe <= 146036) by (subst doe era z'; Z.div_mod_to_equations; lia).
  clearbody doe era. clear z' Hz.
  set (yoe := (doe - doe / 1460 + doe / 36524 - doe / 146096) / 365).
  set (doy := doe - (365 * yoe + yoe / 4 - yoe / 100)).
  set (mp := (5 * doy + 2) / 153).
  assert (Hyoe : 0 <= yoe <= 399) by (subst yoe; Z.div_mod_to_equations; lia).
  assert (Hdoyb : 0 <= doy <= 365) by (subst doy yoe; Z.div_mod_to_equations; lia).
  assert (Hmpb : 0 <= mp <= 11) by (subst mp; Z.div_mod_to_equations; lia).
  assert (Hdoy : doy = doe - (365 * yoe + yoe / 4 - yoe / 100)) by reflexivity.
  assert (Hmp : mp = (5 * doy + 2) / 153) by reflexivity.
  clearbody mp doy yoe.
  assert (Hlast : doe <= 146036 -> yoe + (if mp <? 10 then 0 else 1) <= 399).
  { intros Hd. destruct (mp <? 10) eqn:E; [lia|]. apply Z.ltb_ge in E.
    destruct (Z.eq_dec yoe 399) as [->|]; [|lia].
    change (399 / 4) with 99 in Hdoy. change (399 / 100) with 3 in Hdoy.
    subst mp. Z.div_mod_to_equations. lia. }
  destruct (mp <? 10) eqn:E; [apply Z.ltb_lt in E | apply Z.ltb_ge in E].
  - replace (mp + 3 <=? 2) with false by (symmetry; apply Z.leb_gt; lia). lia.
  - destruct (mp - 9 <=? 2) eqn:F; [|apply Z.leb_gt in F]; lia.
Qed.

Lemma civil_from_days_inj (z1 z2 : Z) :
  civil_from_days z1 = civil_from_days z2 -> z1 = z2.
Proof.
  unfold civil_from_days.
  set (a1 := z1 + 719468). set (e1 := a1 / 146097). set (doe1 := a1 - e1 * 146097).
  set (a2 := z2 + 719468). set (e2 := a2 / 146097). set (doe2 := a2 - e2 * 146097).
  assert (Hz1 : z1 = e1 * 146097 + doe1 - 719468) by (subst doe1 a1; lia).
  assert (Hz2 : z2 = e2 * 146097 + doe2 - 719468) by (subst doe2 a2; lia).
  assert (Hd1 : 0 <= doe1 < 146097) by (subst doe1 e1; Z.div_mod_to_equations; lia).
  assert (Hd2 : 0 <= doe2 < 146097) by (subst doe2 e2; Z.div_mod_to_equations; lia).
  clearbody doe1 doe2 e1 e2. clear a1 a2.
  set (yoe1 := (doe1 - doe1 / 1460 + doe1 / 36524 - doe1 / 146096) / 365).
  set (yoe2 := (doe2 - doe2 / 1460 + doe2 / 36524 - doe2 / 146096) / 365).
  set (doy1 := doe1 - (365 * yoe1 + yoe1 / 4 - yoe1 / 100)).
  set (doy2 := doe2 - (365 * yoe2 + yoe2 / 4 - yoe2 / 100)).
  assert (Hy1 : 0 <= yoe1 <= 399) by (subst yoe1; Z.div_mod_to_equations; lia).
  assert (Hy2 : 0 <= yoe2 <= 399) by (subst yoe2; Z.div_mod_to_equations; lia).
  assert (Ho1 : 0 <= doy1 <= 365) by (subst doy1 yoe1; Z.div_mod_to_equations; lia).
  assert (Ho2 : 0 <= doy2 <= 365) by (subst doy2 yoe2; Z.div_mod_to_equations; lia).
  assert (Hdoe1 : doe1 = doy1 + (365 * yoe1 + yoe1 / 4 - yoe1 / 100)) by (subst doy1; lia).
  assert (Hdoe2 : doe2 = doy2 + (365 * yoe2 + yoe2 / 4 - yoe2 / 100)) by (subst doy2; lia).
  clearbody doy1 doy2 yoe1 yoe2.
  set (mp1 := (5 * doy1 + 2) / 153). set (mp2 := (5 * doy2 + 2) / 153).
  assert (Hm1 : 0 <= mp1 <= 11) by (subst mp1; Z.div_mod_to_equations; lia).
  assert (Hm2 : 0 <= mp2 <= 11) by (subst mp2; Z.div_mod_to_equations; lia).
  clearbody mp1 mp2.
  intros H. injection H as Hy Hm Hd.
  assert (mp1 = mp2).
  { destruct (mp1 <? 10) eqn:E1, (mp2 <? 10) eqn:E2;
      rewrite ?Z.ltb_lt, ?Z.ltb_ge in *; lia. }
  subst mp2.
  assert (doy1 = doy2) by lia. subst doy2.
  assert (yoe1 + e1 * 400 = yoe2 + e2 * 400) by lia.
  assert (e1 = e2) by lia. subst e2.
  assert (yoe1 = yoe2) by lia. subst yoe2.
  lia.
Qed.

Lemma seconds_of_day (s : Z) :
  s mod 86400 = 3600 * ((s mod 86400) / 3600) + 60 * ((s mod 3600) / 60) + s mod 60.
Proof. Z.div_mod_to_equations. lia. Qed.

Lemma strftime_compact_inj (t1 t2 : datetime) :
  0 <= t1 < LIMIT -> 0 <= t2 < LIMIT ->
  strftime_compact t1 = strftime_compact t2 ->
  epoch_seconds t1 = epoch_seconds t2.
Proof.
  unfold LIMIT. intros H1 H2.
  unfold strftime_compact.
  set (s1 := epoch_seconds t1). set (s2 := epoch_seconds t2).
  assert (Hs1 : 0 <= s1 / 86400 <= 2932896)
    by (subst s1; unfold epoch_seconds; Z.div_mod_to_equations; lia).
  assert (Hs2 : 0 <= s2 / 86400 <= 2932896)
    by (subst s2; unfold epoch_seconds; Z.div_mod_to_equations; lia).
  pose proof (@civil_from_days_range (s1 / 86400)) as R1.
  pose proof (@civil_from_days_range (s2 / 86400)) as R2.
  pose proof (@civil_from_days_year _ Hs1) as Y1.
  pose proof (@civil_from_days_year _ Hs2) as Y2.
  pose proof (@civil_from_days_inj (s1 / 86400) (s2 / 86400)) as I.
  destruct (civil_from_days (s1 / 86400)) as [[y1 m1] d1].
  destruct (civil_from_days (s2 / 86400)) as [[y2 m2] d2].
  unfold hour, minute, second. fold s1 s2.
  pose proof (@seconds_of_day s1) as D1. pose proof (@seconds_of_day s2) as D2.
  set (h1 := s1 mod 86400 / 3600) in *. set (h2 := s2 mod 86400 / 3600) in *.
  set (n1 := s1 mod 3600 / 60) in *. set (n2 := s2 mod 3600 / 60) in *.
  set (c1 := s1 mod 60) in *. set (c2 := s2 mod 60) in *.
  assert (Hh1 : 0 <= h1 < 100) by (subst h1; Z.div_mod_to_equations; lia).
  assert (Hh2 : 0 <= h2 < 100) by (subst h2; Z.div_mod_to_equations; lia).
  assert (Hn1 : 0 <= n1 < 100) by (subst n1; Z.div_mod_to_equations; lia).
  assert (Hn2 : 0 <= n2 < 100) by (subst n2; Z.div_mod_to_equations; lia).
  assert (Hc1 : 0 <= c1 < 100) by (subst c1; Z.div_mod_to_equations; lia).
  assert (Hc2 : 0 <= c2 < 100) by (subst c2; Z.div_mod_to_equations; lia).
  clearbody h1 h2 n1 n2 c1 c2.
  intros E.
  apply app_inv_length in E as [Ey E]; [|now rewrite !zfill_length].
  apply app_inv_length in E as [_ E]; [|reflexivity].
  apply app_inv_length in E as [Em E]; [|now rewrite !zfill_length].
  apply app_inv_length in E as [_ E]; [|reflexivity].
  apply app_inv_length in E as [Ed E]; [|now rewrite !zfill_length].
  apply app_inv_length in E as [_ E]; [|reflexivity].
  apply app_inv_length in E as [Eh E]; [|now rewrite !zfill_length].
  apply app_inv_length in E as [En Ec]; [|now rewrite !zfill_length].
  apply zfill_inj_bounded in Ey, Em, Ed, Eh, En, Ec; cbn; try lia.
  subst. specialize (I eq_refl).
  rewrite (Z.div_mod s1 86400), (Z.div_mod s2 86400) by lia. lia.
Qed.

End Dates.

(** ** The queue runner *)

Section RunnerProperties.
Variable L : Library.
Variable E : Env.

Lemma offset_timestamp (t : datetime) (i : nat) :
  (if (0 <? i)%nat then add_seconds t (Z.of_nat i) else t)
  = add_seconds t (Z.of_nat i).
Proof.
  destruct i; cbn [Nat.ltb Nat.leb]; [|reflexivity].
  unfold add_seconds. cbn. lia.
Qed.

Lemma output_file_name (u t c : pystr) (n : pyval)
      (ts : datetime) (filename text : pystr) :
  output_file L u t c n ts = Ok (filename, text) ->
  exists slug, filename = strftime_compact ts ++ str "-" ++ slug ++ str ".md".
Proof.
  unfold output_file.
  destruct (title_slug L u t) as [slug|]; [|discriminate].
  destruct (source_note_line n) as [nl|]; [|discriminate].
  unfold bind. intros H. exists slug.
  apply (f_equal (fun r => match r with Ok (f, _) => f | Raise _ => [] end)) in H.
  symmetry. exact H.
Qed.

Lemma process_item_effect (i : nat) (item : QueueItem) (st : RunState) :
  item_effect E i st (snd (process_item L E i item st)).
Proof.
  unfold item_effect, process_item.
  destruct (truthy (url item)); cbn [negb].
  2:{ cbn. repeat split; auto. }
  destruct (url item) as [| | | |u| |];
    try (cbn; repeat split; auto; fail).
  unfold mbind, run_fetch_url.
  destruct (fst (fetch_url L (world_at E (fetches st)) u)) as [r|e].
  2:{ cbn. repeat split; auto. }
  destruct (success r).
  2:{ cbn. repeat split; auto. }
  unfold now. cbn [clock_reads]. rewrite offset_timestamp.
  unfold write_output, mbind, lift.
  destruct (output_file L u (title r) (content r) (note item)
              (add_seconds (now_at E (clock_reads st)) (Z.of_nat i)))
    as [[filename text]|e] eqn:O.
  2:{ cbn. repeat split; auto. }
  cbn. repeat split; auto. right.
  destruct (@output_file_name _ _ _ _ _ _ _ O) as [slug ->].
  exists slug, text. split; reflexivity.
Qed.

Lemma process_item_cases (i : nat) (item : QueueItem) (st : RunState) :
  exists r st', process_item L E i item st = (r, st') /\ item_effect E i st st'.
Proof.
  destruct (process_item L E i item st) as [r st'] eqn:P.
  exists r, st'. split; [reflexivity|].
  pose proof (process_item_effect i item st) as H. rewrite P in H. exact H.
Qed.

Lemma stamps_weaken (J k j k0 j0 : nat) (ws : list (pystr * pystr)) :
  stamps E J k j ws -> (k0 <= k)%nat -> (j0 <= j)%nat -> stamps E J k0 j0 ws.
Proof.
  intros H Hk Hj. destruct H; constructor; auto; lia.
Qed.

Lemma process_items_effect (urls : list QueueItem) (i : nat) (st : RunState) :
  items_effect E i (length urls) st (snd (process_items L E i urls st)).
Proof.
  revert i st; induction urls as [|item urls IH]; intros i st.
  - cbn. unfold items_effect. repeat split; auto.
    exists []. split; [now rewrite app_nil_r | constructor].
  - cbn [process_items length]. unfold mbind.
    destruct (process_item_cases i item st) as [r [st1 [P (Q1 & F1 & N1 & C1 & W1)]]].
    rewrite P.
    assert (Stop : items_effect E i (S (length urls)) st st1).
    { unfold items_effect. repeat split; auto.
      destruct W1 as [W1 | [slug [text [Hc W1]]]].
      - exists []. split; [now rewrite app_nil_r | constructor].
      - eexists. split; [exact W1|].
        constructor; [lia | lia | lia | constructor]. }
    destruct r as [[]|e]; [|exact Stop].
    specialize (IH (S i) st1).
    destruct IH as (Q2 & F2 & N2 & C2 & new2 & W2 & S2).
    unfold items_effect. repeat split; try congruence; try lia.
    replace (i + S (length urls))%nat with (S i + length urls)%nat by lia.
    destruct W1 as [W1 | [slug [text [Hc W1]]]].
    + exists new2. split; [congruence|].
      eapply stamps_weaken; [exact S2 | lia | lia].
    + eexists. split.
      * rewrite W2, W1, <- app_assoc. reflexivity.
      * cbn [app]. constructor; [lia | lia | lia |].
        rewrite <- Hc. exact S2.
Qed.

Local Open Scope Z_scope.

Lemma epoch_seconds_add (t : datetime) (j : nat) :
  epoch_seconds (add_seconds t (Z.of_nat j)) = epoch_seconds t + Z.of_nat j.
Proof. unfold epoch_seconds, add_seconds. apply Z.div_add. lia. Qed.

Lemma epoch_seconds_mono (t t' : datetime) :
  t <= t' -> epoch_seconds t <= epoch_seconds t'.
Proof. unfold epoch_seconds. intros H. apply Z.div_le_mono; lia. Qed.

Lemma strftime_compact_length (t : datetime) :
  length (strftime_compact t) = 17%nat.
Proof.
  unfold strftime_compact.
  destruct (civil_from_days (epoch_seconds t / 86400)) as [[y m] d].
  rewrite !length_app, !zfill_length. reflexivity.
Qed.

Lemma stamps_fresh (J k j : nat) (ws : list (pystr * pystr)) :
  clock_never_goes_back E -> clock_in_range E J ->
  stamps E J k j ws ->
  forall k0 j0 rest, (k0 < k)%nat -> (j0 < j)%nat -> (j0 < J)%nat ->
  ~ In (strftime_compact (add_seconds (now_at E k0) (Z.of_nat j0)) ++ rest)
       (map fst ws).
Proof.
  intros Mono Range H. induction H as [|k j k' j' rest' text ws Hk Hj HJ Hs IH];
    intros k0 j0 rest Hk0 Hj0 HJ0; cbn [map In fst]; [tauto|].
  intros [Heq | Hin].
  - apply app_inv_length in Heq as [Heq _];
      [|now rewrite !strftime_compact_length].
    apply strftime_compact_inj in Heq; try (apply Range; lia).
    rewrite !epoch_seconds_add in Heq.
    assert (now_at E k0 <= now_at E k') by (apply Mono; lia).
    pose proof (@epoch_seconds_mono _ _ H) as HM. lia.
  - revert Hin. apply IH; lia.
Qed.

Lemma stamps_NoDup (J k j : nat) (ws : list (pystr * pystr)) :
  clock_never_goes_back E -> clock_in_range E J ->
  stamps E J k j ws -> NoDup (map fst ws).
Proof.
  intros Mono Range H. induction H as [|k j k' j' rest text ws Hk Hj HJ Hs IH];
    cbn [map fst]; constructor; [|exact IH].
  apply (@stamps_fresh _ _ _ _ Mono Range Hs); lia.
Qed.

Local Close Scope Z_scope.

(** *** Files that fail entirely *)

Lemma process_file_fails (f : DirEntry) (st : RunState) :
  fails_entirely L f = true -> process_file L E f st = count_failed st.
Proof.
  unfold fails_entirely, process_file, try_except, mbind, lift.
  destruct (read_text f) as [c|e]; [|reflexivity].
  destruct (parse_input_file L c) as [[|item urls]|e]; try discriminate.
  intros _. reflexivity.
Qed.

Lemma process_file_effect (f : DirEntry) (st : RunState) :
  exists st', process_file L E f st = (Ok tt, st') /\ file_effect L f st st'.
Proof.
  destruct (fails_entirely L f) eqn:F.
  - rewrite (@process_file_fails f st F). eexists. split; [reflexivity|].
    unfold file_effect. rewrite F. cbn. repeat split; auto.
  - unfold file_effect. rewrite F.
    unfold fails_entirely in F.
    unfold process_file, try_except, mbind, lift.
    destruct (read_text f) as [c|e]; [|discriminate].
    destruct (parse_input_file L c) as [[|item urls]|e]; [discriminate| |].
    + pose proof (process_items_effect (item :: urls) 0 st) as H.
      destruct (process_items L E 0 (item :: urls) st) as [[[]|e] st1];
        cbn [snd] in H; destruct H as (Q & P & N & _).
      * eexists. split; [reflexivity|]. cbn.
        split; [exact N|]. split; [discriminate|]. right.
        rewrite Q, P. auto.
      * eexists. split; [reflexivity|]. cbn.
        split; [lia|]. split; [discriminate|]. left. auto.
    + eexists. split; [reflexivity|]. cbn.
      split; [lia|]. split; [discriminate|]. left. auto.
Qed.

Lemma process_files_effect (fs : list DirEntry) (st : RunState) (g : DirEntry) :
  (forall f, In f fs -> name f = name g -> fails_entirely L f = true) ->
  exists st', process_files L E fs st = (Ok tt, st')
    /\ (In g (queue_dir st) -> In g (queue_dir st'))
    /\ (~ In (name g) (files_processed (results st)) ->
        ~ In (name g) (files_processed (results st')))
    /\ (n_failed (results st) + length (filter (fails_entirely L) fs)
        <= n_failed (results st'))%nat.
Proof.
  revert st; induction fs as [|f fs IH]; intros st Hg.
  - exists st. cbn. repeat split; auto. lia.
  - cbn [process_files]. unfold mbind.
    destruct (process_file_effect f st) as [st1 [P (N & NF & D)]]. rewrite P.
    destruct (IH st1) as [st2 [P2 (K2 & F2 & N2)]].
    { intros f' Hin. apply Hg. right. exact Hin. }
    exists st2. split; [exact P2|].
    assert (Hsame : fails_entirely L f = false -> name f <> name g).
    { intros Hf Hn. rewrite (Hg f) in Hf; [discriminate | left; reflexivity | exact Hn]. }
    split; [|split].
    + intros Hin. apply K2.
      destruct D as [[-> _] | [Hf [-> _]]]; [exact Hin|].
      apply filter_In. split; [exact Hin|].
      unfold other_name. apply negb_true_iff.
      destruct (str_eqb (name g) (name f)) eqn:Eq; [|reflexivity].
      apply str_eqb_eq in Eq. elim (Hsame Hf). congruence.
    + intros Hnot. apply F2.
      destruct D as [[_ ->] | [Hf [_ ->]]]; [exact Hnot|].
      rewrite in_app_iff. intros [H | [H | []]]; [exact (Hnot H)|].
      exact (Hsame Hf H).
    + cbn [filter]. destruct (fails_entirely L f) eqn:Ff; cbn [length].
      * specialize (NF eq_refl). lia.
      * lia.
Qed.



(** C10, as the code has it.  The timestamp of the item of index [i] is
    the clock reading taken for that item plus exactly [i] seconds.  With a
    clock that does not go back, the files written for the items of one
    queue file have pairwise different names, whatever their titles; the
    index starts again at 0 in the next queue file, so nothing is said
    across queue files. *)
Theorem batch_filenames_distinct :
  (forall i item st, item_effect E i st (snd (process_item L E i item st)))
  /\ (forall urls st,
        clock_never_goes_back E -> clock_in_range E (length urls) ->
        exists new,
          written (snd (process_items L E 0 urls st)) = written st ++ new
          /\ stamps E (length urls) (clock_reads st) 0 new
          /\ NoDup (map fst new)).
Proof.
  split; [exact process_item_effect|].
  intros urls st Mono Range.
  destruct (process_items_effect urls 0 st) as (_ & _ & _ & _ & new & W & S).
  exists new. split; [exact W|]. split; [exact S|].
  exact (stamps_NoDup Mono Range S).
Qed.

End RunnerProperties.


(** ** re.sub on a class and on a repeated class *)

Lemma consumed_one (c : char) (s : pystr) :
  firstn (length (c :: s) - length s) (c :: s) = [c].
Proof.
  cbn [length]. replace (S (length s) - length s)%nat with 1%nat by lia.
  reflexivity.
Qed.

Lemma sub_from_Class (q : char -> bool) (fuel : nat) (s : pystr)
      (prev : option char) :
  (length s <= fuel)%nat ->
  sub_from fuel (Class q) [] prev s = filter (fun c => negb (q c)) s.
Proof.
  revert s prev; induction fuel as [|fuel IH]; intros s prev Hf.
  - destruct s; [reflexivity | cbn in Hf; lia].
  - destruct s as [|c s]; [reflexivity|].
    cbn [length] in Hf. cbn [sub_from filter].
    unfold match_here. cbn [rmatch].
    destruct (q c); cbn [negb].
    + cbn [group0 after]. rewrite consumed_one. cbn [app]. apply IH. lia.
    + f_equal. apply IH. lia.
Qed.

Lemma re_sub_Class (q : char -> bool) (s : pystr) :
  re_sub (Class q) [] s = filter (fun c => negb (q c)) s.
Proof. apply sub_from_Class. lia. Qed.

Lemma squeeze_in_run (p : char -> bool) (r s : pystr) :
  squeeze p r true s = squeeze p r false (lstrip_by p s).
Proof.
  induction s as [|c s IH]; [reflexivity|].
  cbn [squeeze lstrip_by]. destruct (p c) eqn:E.
  - cbn [app]. exact IH.
  - cbn [squeeze]. rewrite E. reflexivity.
Qed.

Lemma lstrip_by_length (p : char -> bool) (s : pystr) :
  (length (lstrip_by p s) <= length s)%nat.
Proof.
  induction s as [|c s IH]; [reflexivity|].
  cbn [lstrip_by]. destruct (p c); cbn [length]; lia.
Qed.

(** The greedy star followed by a continuation that accepts everything
    reads the whole run. *)
Lemma star_run (R : Type) (p : char -> bool) (k : cont R) (caps : captures)
      (s : pystr) (prev : option char) :
  (forall pr rest c, k pr rest c <> None) ->
  exists pr, star p k caps prev s = k pr (lstrip_by p s) caps.
Proof.
  intros Hk. revert prev. induction s as [|c s IH]; intros prev.
  - exists prev. reflexivity.
  - cbn [star lstrip_by]. destruct (p c) eqn:E.
    + destruct (IH (Some c)) as [pr Hpr]. rewrite Hpr.
      exists pr. destruct (k pr (lstrip_by p s) caps) eqn:K; [reflexivity|].
      elim (Hk _ _ _ K).
    + exists prev. reflexivity.
Qed.

Lemma match_here_Plus (p : char -> bool) (prev : option char) (c : char)
      (s : pystr) :
  p c = true ->
  exists m, match_here false (Plus p) prev (c :: s) = Some m
            /\ after m = lstrip_by p s /\ group0 m <> [].
Proof.
  intros E. unfold match_here. cbn [rmatch]. rewrite E.
  destruct (@star_run rematch p
              (fun _ rest caps =>
                 Some {| group0 := firstn (length (c :: s) - length rest) (c :: s);
                         groups := caps; after := rest |})
              [] s (Some c)) as [pr ->]; [discriminate|].
  eexists. split; [reflexivity|]. cbn [after group0]. split; [reflexivity|].
  pose proof (lstrip_by_length p s) as Hl. cbn [length].
  destruct (S (length s) - length (lstrip_by p s))%nat eqn:D; [lia|].
  discriminate.
Qed.

Lemma match_here_Plus_miss (p : char -> bool) (prev : option char) (c : char)
      (s : pystr) :
  p c = false -> match_here false (Plus p) prev (c :: s) = None.
Proof. intros E. unfold match_here. cbn [rmatch]. now rewrite E. Qed.

Lemma sub_from_Plus (p : char -> bool) (r : pystr) (fuel : nat) (s : pystr)
      (prev : option char) :
  (length s <= fuel)%nat ->
  sub_from fuel (Plus p) r prev s = squeeze p r false s.
Proof.
  revert s prev; induction fuel as [|fuel IH]; intros s prev Hf.
  - destruct s; [reflexivity | cbn in Hf; lia].
  - destruct s as [|c s]; [reflexivity|].
    cbn [length] in Hf. cbn [sub_from squeeze].
    destruct (p c) eqn:E.
    + destruct (@match_here_Plus p prev c s E) as [m [-> [Ha Hg]]].
      destruct (group0 m) as [|g gs] eqn:G; [congruence|].
      rewrite Ha, IH, squeeze_in_run; [reflexivity|].
      pose proof (lstrip_by_length p s). lia.
    + rewrite (@match_here_Plus_miss p prev c s E). f_equal. apply IH. lia.
Qed.

Lemma re_sub_Plus (p : char -> bool) (r s : pystr) :
  re_sub (Plus p) r s = squeeze p r false s.
Proof. apply sub_from_Plus. lia. Qed.

(** ** The slug *)

Lemma lstrip_by_suffix (p : char -> bool) (s : pystr) :
  exists a, s = a ++ lstrip_by p s.
Proof.
  induction s as [|c s [a IH]]; [now exists []|].
  cbn [lstrip_by]. destruct (p c).
  - exists (c :: a). cbn. now rewrite <- IH.
  - now exists [].
Qed.

Lemma rstrip_by_prefix (p : char -> bool) (s : pystr) :
  exists b, s = rstrip_by p s ++ b.
Proof.
  unfold rstrip_by. destruct (lstrip_by_suffix p (rev s)) as [a H].
  exists (rev a). rewrite <- rev_app_distr, <- H. symmetry. apply rev_involutive.
Qed.

Lemma strip_by_part (p : char -> bool) (s : pystr) :
  exists a b, s = a ++ strip_by p s ++ b.
Proof.
  unfold strip_by. destruct (lstrip_by_suffix p s) as [a Ha].
  destruct (rstrip_by_prefix p (lstrip_by p s)) as [b Hb].
  exists a, b. now rewrite <- Hb.
Qed.

Lemma lstrip_by_stops_head (p : char -> bool) (s : pystr) :
  stops p (lstrip_by p s).
Proof.
  induction s as [|c s IH]; [exact I|].
  cbn [lstrip_by]. destruct (p c) eqn:E; [exact IH|].
  exact E.
Qed.

Lemma stops_prefix (q : char -> bool) (a b : pystr) :
  stops q (a ++ b) -> a <> [] -> stops q a.
Proof. destruct a; [congruence | auto]. Qed.

Lemma strip_by_ends (p : char -> bool) (s : pystr) :
  stops p (strip_by p s)
  /\ stops p (rev (strip_by p s)).
Proof.
  unfold strip_by. split.
  - destruct (rstrip_by_prefix p (lstrip_by p s)) as [b Hb].
    destruct (rstrip_by p (lstrip_by p s)) as [|c r] eqn:E; [exact I|].
    apply (@stops_prefix _ (c :: r) b); [|discriminate].
    rewrite <- Hb. apply lstrip_by_stops_head.
  - unfold rstrip_by. rewrite rev_involutive. apply lstrip_by_stops_head.
Qed.

Lemma squeeze_chars (p : char -> bool) (r : pystr) (b : bool) (s : pystr)
      (c : char) :
  In c (squeeze p r b s) -> In c r \/ (In c s /\ p c = false).
Proof.
  revert b; induction s as [|x s IH]; intros b; cbn [squeeze]; [intros []|].
  destruct (p x) eqn:E.
  - rewrite in_app_iff. intros [H | H].
    + destruct b; [contradiction | now left].
    + destruct (IH _ H) as [? | [? ?]]; [now left | right; cbn; auto].
  - intros [<- | H]; [right; cbn; auto|].
    destruct (IH _ H) as [? | [? ?]]; [now left | right; cbn; auto].
Qed.

Lemma substring_cons (t : pystr) (x : char) (s : pystr) :
  substring t (x :: s) -> startswith (x :: s) t = true \/ substring t s.
Proof.
  intros [a [b H]]. destruct a as [|y a].
  - left. apply startswith_spec. now exists b.
  - right. injection H as _ H. now exists a, b.
Qed.

Lemma squeeze_no_double (p : char -> bool) (h : char) (b : bool) (s : pystr) :
  p h = true ->
  ~ substring [h; h] (squeeze p [h] b s)
  /\ (b = true -> stops (fun c => c =? h) (squeeze p [h] b s)).
Proof.
  intros Hh. revert b; induction s as [|x s IH]; intros b.
  - cbn. split; [|auto]. intros [a [c H]]. destruct a; discriminate.
  - cbn [squeeze]. destruct (p x) eqn:E.
    + destruct b; cbn [app].
      * apply IH.
      * destruct (IH true) as [N S]. specialize (S eq_refl).
        split; [|intros D; discriminate D]. intros H.
        apply substring_cons in H as [H | H]; [|exact (N H)].
        destruct (squeeze p [h] true s) as [|y t];
          [cbn in H; rewrite andb_false_r in H; discriminate H|].
        cbn in H, S. rewrite N.eqb_refl in H. cbn in H.
        apply andb_true_iff in H as [H _].
        rewrite N.eqb_sym in H. congruence.
    + destruct (IH false) as [N _].
      assert (Hx : (x =? h) = false).
      { apply N.eqb_neq. intros ->. congruence. }
      split; [|intros _; exact Hx]. intros H.
      apply substring_cons in H as [H | H]; [|exact (N H)].
      cbn in H. rewrite N.eqb_sym, Hx in H. discriminate.
Qed.

Lemma not_substring_part (t a s b : pystr) :
  ~ substring t (a ++ s ++ b) -> ~ substring t s.
Proof. intros H Hs. apply H. now apply substring_app. Qed.

Lemma firstn_part {A} (n : nat) (l : list A) : exists b, l = firstn n l ++ b.
Proof. exists (skipn n l). symmetry. apply firstn_skipn. Qed.

Section SlugProperties.
Variable L : Library.

Lemma slugify_uncut (text : pystr) (max_length : nat) :
  slugify L text max_length = firstn max_length (uncut_slug L text).
Proof.
  unfold slugify, uncut_slug. rewrite re_sub_Plus, re_sub_Class.
  do 3 f_equal. apply filter_ext. intros c. apply negb_involutive.
Qed.

Lemma uncut_slug_chars (text : pystr) (c : char) :
  In c (uncut_slug L text) -> is_word L c = true \/ c = HYPHEN.
Proof.
  unfold uncut_slug. intros H.
  destruct (strip_by_part is_hyphen
              (squeeze gap [HYPHEN] false (filter (kept L) (lower L text))))
    as [a [b E]].
  assert (H' : In c (squeeze gap [HYPHEN] false (filter (kept L) (lower L text)))).
  { rewrite E, !in_app_iff. auto. }
  apply squeeze_chars in H' as [[<- | []] | [Hin Hg]]; [now right|].
  apply filter_In in Hin as [_ Hk]. left.
  unfold kept in Hk. unfold gap in Hg.
  apply orb_false_iff in Hg as [Hh Hs]. rewrite Hh, Hs, !orb_false_r in Hk.
  exact Hk.
Qed.

(** X12.  The slug is at most [max_length] long, consists of word
    characters and hyphens, has no two hyphens in a row and does not start
    with a hyphen; it does not end with one either unless it was cut. *)
Lemma slugify_properties (text : pystr) (max_length : nat) :
  (length (slugify L text max_length) <= max_length)%nat
  /\ Forall (fun c => is_word L c = true \/ c = HYPHEN)
            (slugify L text max_length)
  /\ ~ substring [HYPHEN; HYPHEN] (slugify L text max_length)
  /\ stops is_hyphen (slugify L text max_length)
  /\ ((length (slugify L text max_length) < max_length)%nat ->
      stops is_hyphen (rev (slugify L text max_length))).
Proof.
  rewrite slugify_uncut.
  destruct (firstn_part max_length (uncut_slug L text)) as [b Hb].
  split; [apply firstn_le_length|]. split; [|split; [|split]].
  - apply Forall_forall. intros c Hc. apply (@uncut_slug_chars text).
    rewrite Hb, in_app_iff. now left.
  - apply (@not_substring_part _ [] _ b). cbn [app]. rewrite <- Hb.
    unfold uncut_slug.
    destruct (strip_by_part is_hyphen
                (squeeze gap [HYPHEN] false (filter (kept L) (lower L text))))
      as [a' [b' E]].
    apply (@not_substring_part _ a' _ b'). rewrite <- E.
    apply squeeze_no_double. reflexivity.
  - destruct (firstn max_length (uncut_slug L text)) as [|c r] eqn:E; [exact I|].
    apply (@stops_prefix _ (c :: r) b); [|discriminate].
    rewrite <- Hb. apply strip_by_ends.
  - intros Hlt. rewrite firstn_all2.
    + apply strip_by_ends.
    + rewrite length_firstn in Hlt. lia.
Qed.

End SlugProperties.

(** ** The validators and the orchestrator on examples *)

Ltac occurs_now := apply contains_spec; vm_compute; reflexivity.
Ltac occurs_not H := apply contains_spec in H; vm_compute in H; discriminate H.

Lemma validators_fire_witness :
  is_login_page (str "Sign up") = true
  /\ is_cloudflare_challenge sample_library (str "RAY ID: 7f") = false
  /\ is_cloudflare_challenge sample_library (str "Ray ID: 7f (Cloudflare)") = true.
Proof.
  split; [|split].
  - destruct (validators_fire sample_library (str "Sign up")) as (_ & H & _).
    apply H. occurs_now.
  - destruct (validators_fire sample_library (str "RAY ID: 7f")) as (_ & _ & H & _).
    apply H. exists (str "Ray ID:"). split; [cbn; tauto|]. split.
    + unfold occurs_ci. occurs_now.
    + intros ind' Hin Hocc. unfold occurs_ci in Hocc. cbn in Hin.
      destruct Hin as [<-|[<-|[<-|[<-|[<-|[<-|[]]]]]]];
        try reflexivity; occurs_not Hocc.
  - destruct (validators_fire sample_library (str "Ray ID: 7f (Cloudflare)"))
      as (_ & _ & _ & H & _).
    apply (H (str "Ray ID:") (str "cloudflare")).
    + cbn; tauto.
    + cbn; tauto.
    + discriminate.
    + unfold occurs_ci. occurs_now.
    + unfold occurs_ci. occurs_now.
Defined.

Lemma fetch_url_decision_witness :
  fetch_url sample_library world_page (str "https://claude.ai/share/abc")
  = (Ok (failed (str "Playwright not installed. Run: pip install playwright && playwright install chromium")),
     [Call_fetch_via_playwright (str "https://claude.ai/share/abc")])
  /\ fetch_url sample_library world_page example_url
     = (Ok (fetched (str "Example") (str "# Example" ++ [NL] ++ long_text)),
        [Call_fetch_via_jina example_url])
  /\ fetch_url sample_library world_login_wall example_url
     = (Ok (fetched (str "Example") long_text),
        [Call_fetch_via_jina example_url; Call_fetch_via_playwright example_url])
  /\ fetch_url sample_library world_unreachable example_url
     = (Ok (failed (str "URL Error: timed out")), [Call_fetch_via_jina example_url]).
Proof.
  split; [|split; [|split]].
  - destruct (fetch_url_decision sample_library world_page
                (str "https://claude.ai/share/abc")) as (H & _).
    apply H. vm_compute. reflexivity.
  - destruct (fetch_url_decision sample_library world_page example_url)
      as (_ & H & _).
    apply H; vm_compute; reflexivity.
  - destruct (fetch_url_decision sample_library world_login_wall example_url)
      as (_ & _ & H & _).
    apply (H (str "Got login page instead of content (JS rendering required)"));
      [vm_compute; reflexivity | vm_compute; reflexivity |].
    left. occurs_now.
  - destruct (fetch_url_decision sample_library world_unreachable example_url)
      as (_ & _ & _ & H).
    apply (H (str "URL Error: timed out"));
      [vm_compute; reflexivity | vm_compute; reflexivity | |];
      intros C; occurs_not C.
Defined.

(** The claim C1 reads the test on the error text as written: an error that
    contains neither [login page] nor [JS rendering] is returned as it is.
    A 403 whose reason is [Login Page] contains neither, and the rendered
    fetcher is called all the same. *)
Lemma fetch_url_http_error_falls_back :
  needs_js_rendering example_url = false
  /\ fetch_via_jina sample_library world_http_403 example_url
     = failed (str "HTTP 403: Login Page")
  /\ ~ substring (str "login page") (str "HTTP 403: Login Page")
  /\ ~ substring (str "JS rendering") (str "HTTP 403: Login Page")
  /\ fetch_url sample_library world_http_403 example_url
     <> (Ok (failed (str "HTTP 403: Login Page")),
         [Call_fetch_via_jina example_url])
  /\ fetch_url sample_library world_http_403 example_url
     = (Ok (fetched (str "Example") long_text),
        [Call_fetch_via_jina example_url; Call_fetch_via_playwright example_url]).
Proof.
  split; [vm_compute; reflexivity|].
  split; [vm_compute; reflexivity|].
  split; [intros C; occurs_not C|].
  split; [intros C; occurs_not C|].
  split; [vm_compute; discriminate | vm_compute; reflexivity].
Qed.

Lemma login_wall_falls_back_witness :
  fetch_via_jina sample_library world_login_wall example_url
  = failed (str "Got login page instead of content (JS rendering required)")
  /\ fetch_url sample_library world_login_wall example_url
     = (Ok (fetch_via_playwright sample_library world_login_wall example_url),
        [Call_fetch_via_jina example_url; Call_fetch_via_playwright example_url]).
Proof.
  apply (@login_wall_falls_back sample_library world_login_wall example_url
            (str "Continue with Google")).
  - vm_compute. reflexivity.
  - reflexivity.
  - occurs_now.
Defined.

(** The claim C2 has no rendered fetch and a failure as the final result:
    here the rendered fetch is made and the final result is its success. *)
Lemma login_wall_is_rendered :
  needs_js_rendering example_url = false
  /\ urlopen world_login_wall (JINA_READER_PREFIX ++ example_url)
     = HttpBody (str "Continue with Google")
  /\ In (Call_fetch_via_playwright example_url)
        (snd (fetch_url sample_library world_login_wall example_url))
  /\ fst (fetch_url sample_library world_login_wall example_url)
     = Ok (fetched (str "Example") long_text).
Proof.
  split; [vm_compute; reflexivity|].
  split; [reflexivity|].
  split; [vm_compute; tauto | vm_compute; reflexivity].
Qed.

Lemma fetch_outcome_shape_witness :
  content (fetch_via_playwright sample_library world_login_wall example_url) <> []
  /\ outcome_shape (fetch_via_jina sample_library world_empty_body example_url).
Proof.
  destruct (fetch_outcome_shape sample_library world_login_wall example_url)
    as (_ & _ & _ & H & _).
  split; [apply H; vm_compute; reflexivity|].
  apply (fetch_outcome_shape sample_library world_empty_body example_url).
Defined.

(** The claim C3 asks for a non-empty content on success: the proxy fetcher
    succeeds with the empty body of a 200 response. *)
Lemma fetch_via_jina_empty_success :
  success (fetch_via_jina sample_library world_empty_body example_url) = true
  /\ content (fetch_via_jina sample_library world_empty_body example_url) = []
  /\ fst (fetch_url sample_library world_empty_body example_url)
     = Ok (fetched (str "example.com") []).
Proof. vm_compute. repeat split. Qed.

(** ** The input parser on examples *)


Lemma parse_input_file_raises_witness :
  exists item, In item [PInt 1] /\ is_dict item = false
               /\ parse_input_file sample_library (str "[1]")
                  = Raise (AttributeError item "get").
Proof.
  apply (@parse_input_file_raises sample_library (str "[1]") [PInt 1]).
  - vm_compute. reflexivity.
  - vm_compute. reflexivity.
  - reflexivity.
Defined.

(** ** The queue runner on examples *)



Lemma batch_filenames_distinct_witness :
  exists new,
    written (snd (process_items sample_library env_fixed_clock 0 two_items
                    (initial_state [])))
    = written (initial_state []) ++ new
    /\ stamps env_fixed_clock (length two_items)
              (clock_reads (initial_state [])) 0 new
    /\ NoDup (map fst new).
Proof.
  destruct (batch_filenames_distinct sample_library env_fixed_clock) as [_ H].
  apply (H two_items (initial_state [])).
  - intros k k' _. cbn. lia.
  - intros k j Hj. cbn in Hj. unfold add_seconds, LIMIT. cbn [now_at env_fixed_clock].
    lia.
Defined.

(** The two items of one queue file, fetched while the clock stands still:
    the second name is one second later than the first. *)
Lemma two_items_filenames :
  map fst (written (snd (process_items sample_library env_fixed_clock 0
                           two_items (initial_state []))))
  = [ str "2026-11-03T203045-example.md"; str "2026-11-03T203046-example.md" ].
Proof. vm_compute. reflexivity. Qed.

(** The claim C10 has every name unique within the run: two queue files
    with one URL each, fetched within the same second with the same title,
    are written to the same name, since each is the item of index 0 of its
    file. *)
Lemma two_queue_files_collide :
  exists st,
    process_queue sample_library env_ticking
                  (Some [one_url_file "a.txt"; one_url_file "b.txt"])
    = Summary st 0
    /\ n_success (results st) = 2%nat
    /\ map fst (written st)
       = [ str "2026-11-03T203045-example.md";
           str "2026-11-03T203045-example.md" ]
    /\ ~ NoDup (map fst (written st)).
Proof.
  eexists. split; [vm_compute; reflexivity|].
  split; [reflexivity|]. split; [reflexivity|].
  intros ND. inversion ND as [|? ? Hnot _]. apply Hnot. left. reflexivity.
Qed.

(* ================================================================== *)
(** * Part III: further properties of the program                      *)
(* ================================================================== *)

(** ** What a successful match has read *)

Section MatcherInversion.
Variable ml : bool.
Variable R : Type.

Lemma star_inv (p : char -> bool) (k : cont R) (caps : captures)
      (s : pystr) (prev : option char) (v : R) :
  star p k caps prev s = Some v ->
  exists xs rest pr,
    s = xs ++ rest /\ forallb p xs = true /\ k pr rest caps = Some v.
Proof.
  revert prev. induction s as [|c s IH]; intros prev H.
  - exists [], [], prev. auto.
  - cbn [star] in H. destruct (p c) eqn:E.
    + destruct (star p k caps (Some c) s) as [r|] eqn:S.
      * injection H as <-. destruct (IH _ S) as (xs & rest & pr & -> & F & K).
        exists (c :: xs), rest, pr. cbn. rewrite E. auto.
      * exists [], (c :: s), prev. auto.
    + exists [], (c :: s), prev. auto.
Qed.

Lemma plus_inv (p : char -> bool) (k : cont R) (caps : captures)
      (s : pystr) (prev : option char) (v : R) :
  rmatch ml (Plus p) prev s caps k = Some v ->
  exists xs rest pr,
    s = xs ++ rest /\ xs <> [] /\ forallb p xs = true
    /\ k pr rest caps = Some v.
Proof.
  destruct s as [|c s]; cbn [rmatch]; [discriminate|].
  destruct (p c) eqn:E; [|discriminate]. intros H.
  destruct (star_inv _ _ _ _ _ H) as (xs & rest & pr & -> & F & K).
  exists (c :: xs), rest, pr. cbn. rewrite E. repeat split; auto. discriminate.
Qed.

Lemma lit_inv (l : pystr) (k : cont R) (caps : captures)
      (s : pystr) (prev : option char) (v : R) :
  rmatch ml (Lit l) prev s caps k = Some v ->
  exists rest, s = l ++ rest /\ k (before l prev) rest caps = Some v.
Proof.
  cbn [rmatch]. destruct (startswith s l) eqn:E; [|discriminate].
  apply startswith_spec in E as [rest ->]. intros H.
  exists rest. split; [reflexivity|].
  rewrite skipn_app, skipn_all, Nat.sub_diag in H. exact H.
Qed.

Lemma opt_inv (r : regex) (k : cont R) (caps : captures)
      (s : pystr) (prev : option char) (v : R) :
  rmatch ml (Opt r) prev s caps k = Some v ->
  rmatch ml r prev s caps k = Some v \/ k prev s caps = Some v.
Proof.
  cbn [rmatch]. destruct (rmatch ml r prev s caps k); [left | right]; auto.
Qed.

Lemma class_inv (p : char -> bool) (k : cont R) (caps : captures)
      (s : pystr) (prev : option char) (v : R) :
  rmatch ml (Class p) prev s caps k = Some v ->
  exists c rest, s = c :: rest /\ p c = true /\ k (Some c) rest caps = Some v.
Proof.
  destruct s as [|c s]; cbn [rmatch]; [discriminate|].
  destruct (p c) eqn:E; [|discriminate]. intros H. exists c, s. auto.
Qed.

Lemma bol_inv (k : cont R) (caps : captures) (s : pystr)
      (prev : option char) (v : R) :
  rmatch ml Bol prev s caps k = Some v -> k prev s caps = Some v.
Proof. cbn [rmatch]. destruct (at_bol ml prev); [auto | discriminate]. Qed.

Lemma eol_inv (k : cont R) (caps : captures) (s : pystr)
      (prev : option char) (v : R) :
  rmatch ml Eol prev s caps k = Some v ->
  at_eol ml s = true /\ k prev s caps = Some v.
Proof. cbn [rmatch]. destruct (at_eol ml s); [auto | discriminate]. Qed.

(** [https?://\S+] has read an [http_url]. *)
Lemma url_shape_inv (k : cont R) (caps : captures) (s : pystr)
      (prev : option char) (v : R) :
  rmatch ml url_shape prev s caps k = Some v ->
  exists u rest pr, s = u ++ rest /\ http_url u /\ k pr rest caps = Some v.
Proof.
  unfold url_shape. rewrite rmatch_Cat. intros H.
  apply lit_inv in H as (s1 & -> & H). rewrite rmatch_Cat in H.
  assert (T : forall pr0 s0,
             rmatch ml (Lit (str "://") >> Plus not_space) pr0 s0 caps k = Some v ->
             exists xs rest pr, s0 = str "://" ++ xs ++ rest /\ xs <> []
                                /\ forallb not_space xs = true
                                /\ k pr rest caps = Some v).
  { intros pr0 s0 H0. rewrite rmatch_Cat in H0.
    apply lit_inv in H0 as (s2 & -> & H0).
    apply plus_inv in H0 as (xs & rest & pr & -> & Hx & F & K).
    exists xs, rest, pr. auto. }
  apply opt_inv in H as [H | H].
  - apply lit_inv in H as (s2 & -> & H).
    apply T in H as (xs & rest & pr & -> & Hx & F & K).
    exists (str "https://" ++ xs), rest, pr. split; [now rewrite <- app_assoc|].
    split; [|exact K]. exists (str "https://"), xs. auto.
  - apply T in H as (xs & rest & pr & -> & Hx & F & K).
    exists (str "http://" ++ xs), rest, pr. split; [now rewrite <- app_assoc|].
    split; [|exact K]. exists (str "http://"), xs. auto.
Qed.

End MatcherInversion.

(** ** The URLs of the text forms *)

Lemma list_pattern_url (line : pystr) (m : rematch) :
  re_match list_pattern line = Some m -> http_url (group_or_empty m 1).
Proof.
  unfold re_match, match_here, list_pattern. intros H.
  rewrite rmatch_Cat in H. apply bol_inv in H.
  rewrite rmatch_Cat in H. apply class_inv in H as (b & s1 & _ & _ & H).
  rewrite rmatch_Cat in H. apply plus_inv in H as (ws & s2 & pr & _ & _ & _ & H).
  rewrite rmatch_Cat, rmatch_Group in H.
  apply url_shape_inv in H as (u & rest & pr1 & -> & Hu & H).
  rewrite firstn_consumed, rmatch_Cat in H.
  apply opt_inv in H as [H | H].
  - rewrite rmatch_Cat in H. apply plus_inv in H as (w1 & s3 & pr2 & _ & _ & _ & H).
    rewrite rmatch_Cat in H. apply class_inv in H as (d & s4 & _ & _ & H).
    rewrite rmatch_Cat in H. apply plus_inv in H as (w2 & s5 & pr3 & _ & _ & _ & H).
    rewrite rmatch_Group, rmatch_Star in H.
    apply star_inv in H as (n & s6 & pr4 & _ & _ & H).
    apply eol_inv in H as [_ H]. injection H as <-. exact Hu.
  - apply eol_inv in H as [_ H]. injection H as <-. exact Hu.
Qed.

Lemma list_items_text (lines : list pystr) :
  Forall text_item (list_items lines).
Proof.
  unfold list_items. apply Forall_flat_map, Forall_forall. intros line _.
  unfold list_item.
  destruct (re_match list_pattern (strip line)) as [m|] eqn:E; [|constructor].
  constructor; [|constructor].
  exists (group_or_empty m 1), (group_or_empty m 2).
  split; [reflexivity|]. split; [reflexivity|].
  exact (list_pattern_url _ E).
Qed.

Lemma url_pattern_url (x : pystr) :
  is_some (re_match url_pattern (strip x)) = true -> http_url (strip x).
Proof.
  destruct (re_match url_pattern (strip x)) as [m|] eqn:E; [|discriminate].
  intros _. unfold re_match, match_here, url_pattern in E.
  rewrite rmatch_Cat in E. apply bol_inv in E. rewrite rmatch_Cat in E.
  apply url_shape_inv in E as (u & rest & pr & Hx & Hu & E).
  apply eol_inv in E as [A _].
  destruct rest as [|c rest].
  - rewrite app_nil_r in Hx. now rewrite Hx.
  - cbn in A. apply andb_true_iff in A as [A B]. apply N.eqb_eq in A. subst c.
    destruct rest; [|discriminate].
    destruct (strip_by_ends isspace x) as [_ T]. fold (strip x) in T.
    rewrite Hx, rev_app_distr in T. discriminate T.
Qed.

Lemma search_from_inv (ml : bool) (r : regex) (s : pystr)
      (prev : option char) (m : rematch) :
  search_from ml r prev s = Some m ->
  exists pr s', match_here ml r pr s' = Some m.
Proof.
  revert prev. induction s as [|c s IH]; intros prev; cbn [search_from].
  - destruct (match_here ml r prev []) eqn:E; [|discriminate].
    intros [= <-]. eauto.
  - destruct (match_here ml r prev (c :: s)) eqn:E.
    + intros [= <-]. eauto.
    + apply IH.
Qed.

Lemma url_search_url (content : pystr) (m : rematch) :
  re_search url_shape content = Some m -> http_url (group0 m).
Proof.
  intros H. apply search_from_inv in H as (pr & s & H).
  unfold match_here in H.
  apply url_shape_inv in H as (u & rest & pr1 & -> & Hu & H).
  injection H as <-. cbn [group0]. now rewrite firstn_consumed.
Qed.

Lemma single_form_text (content : pystr) : Forall text_item (single_form content).
Proof.
  unfold single_form.
  set (first_line := strip (hd [] (split_char NL (strip (fst (split_once [NL; NL] content)))))).
  destruct (is_some (re_match url_pattern first_line)) eqn:E.
  - constructor; [|constructor]. eexists _, _.
    split; [reflexivity|]. split; [reflexivity|].
    now apply url_pattern_url.
  - destruct (re_search url_shape content) as [m|] eqn:S; [|constructor].
    constructor; [|constructor]. eexists _, _.
    split; [reflexivity|]. split; [reflexivity|].
    exact (url_search_url _ S).
Qed.

Section TextForms.
Variable L : Library.

(** X2.  When the JSON form does not take the text, [parse_input_file]
    returns, and every item it returns has a text as URL and a text as
    note, the URL being [http://] or [https://] followed by at least one
    character and holding no white space. *)
Theorem text_forms_give_http_urls (content : pystr) :
  json_form L (strip content) = None ->
  exists items, parse_input_file L content = Ok items
                /\ Forall text_item items.
Proof.
  intros HJ. unfold parse_input_file.
  destruct (strip content) as [|c text] eqn:S.
  - exists []. split; [reflexivity | constructor].
  - rewrite HJ.
    pose proof (list_items_text (split_char NL (c :: text))) as F.
    destruct (list_items (split_char NL (c :: text))) as [|i items].
    + eexists. split; [reflexivity|]. apply single_form_text.
    + eexists. split; [reflexivity|]. exact F.
Qed.
End TextForms.

(** ** Stripping a text with blanks around *)

Lemma lstrip_by_blank (p : char -> bool) (a s : pystr) :
  forallb p a = true -> lstrip_by p (a ++ s) = lstrip_by p s.
Proof.
  induction a as [|c a IH]; [reflexivity|]. cbn [forallb app lstrip_by].
  intros H. apply andb_true_iff in H as [-> H]. now apply IH.
Qed.

Lemma lstrip_by_nil (p : char -> bool) (s : pystr) :
  lstrip_by p s = [] <-> forallb p s = true.
Proof.
  induction s as [|c s IH]; [cbn; tauto|]. cbn [lstrip_by forallb].
  destruct (p c); cbn [andb]; [exact IH|]. split; discriminate.
Qed.

Lemma lstrip_by_kept (p : char -> bool) (a b : pystr) :
  lstrip_by p a <> [] -> lstrip_by p (a ++ b) = lstrip_by p a ++ b.
Proof.
  induction a as [|c a IH]; [intros H; now elim H|]. cbn [app lstrip_by].
  destruct (p c); [exact IH | reflexivity].
Qed.

Lemma rstrip_by_blank (p : char -> bool) (s b : pystr) :
  forallb p b = true -> rstrip_by p (s ++ b) = rstrip_by p s.
Proof.
  intros H. unfold rstrip_by. rewrite rev_app_distr, lstrip_by_blank; auto.
  rewrite forallb_forall in *. intros x Hx. apply H. now apply in_rev.
Qed.

Lemma rstrip_by_nil (p : char -> bool) (s : pystr) :
  rstrip_by p s = [] <-> forallb p s = true.
Proof.
  unfold rstrip_by. split.
  - intros H. apply (f_equal (@rev _)) in H. rewrite rev_involutive in H.
    apply lstrip_by_nil in H. rewrite forallb_forall in *.
    intros x Hx. apply H. now apply -> in_rev.
  - intros H. replace (lstrip_by p (rev s)) with (@nil char); [reflexivity|].
    symmetry. apply lstrip_by_nil. rewrite forallb_forall in *.
    intros x Hx. apply H. now apply in_rev.
Qed.

Lemma rstrip_by_kept (p : char -> bool) (a s : pystr) :
  rstrip_by p s <> [] -> rstrip_by p (a ++ s) = a ++ rstrip_by p s.
Proof.
  unfold rstrip_by. intros H. rewrite rev_app_distr, lstrip_by_kept.
  - now rewrite rev_app_distr, rev_involutive.
  - intros E. apply H. now rewrite E.
Qed.

Lemma strip_by_blank (p : char -> bool) (a s b : pystr) :
  forallb p a = true -> forallb p b = true ->
  strip_by p (a ++ s ++ b) = strip_by p s.
Proof.
  intros Ha Hb. unfold strip_by. rewrite lstrip_by_blank by exact Ha.
  destruct (lstrip_by p s) as [|c r] eqn:E.
  - apply lstrip_by_nil in E.
    replace (lstrip_by p (s ++ b)) with (@nil char); [reflexivity|].
    symmetry. apply lstrip_by_nil. rewrite forallb_app, E, Hb. reflexivity.
  - rewrite lstrip_by_kept by congruence. rewrite E.
    now apply rstrip_by_blank.
Qed.

Lemma strip_blank (a : pystr) : forallb isspace a = true -> strip a = [].
Proof.
  intros H. unfold strip, strip_by.
  replace (lstrip_by isspace a) with (@nil char); [reflexivity|].
  symmetry. now apply lstrip_by_nil.
Qed.

Section BlankInvariance.
Variable L : Library.

(** X1.  White space around the text of a queue file changes nothing:
    the text is stripped before any form is tried, and a text of white
    space alone gives no item. *)
Theorem blanks_around_are_ignored (a content b : pystr) :
  forallb isspace a = true -> forallb isspace b = true ->
  parse_input_file L (a ++ content ++ b) = parse_input_file L content
  /\ parse_input_file L a = Ok [].
Proof.
  intros Ha Hb. unfold parse_input_file. split.
  - unfold strip. now rewrite strip_by_blank.
  - now rewrite strip_blank.
Qed.
End BlankInvariance.

(** ** The single-item form *)

Lemma not_space_not_newline (u : pystr) :
  forallb not_space u = true -> forallb not_newline u = true.
Proof.
  rewrite !forallb_forall. intros H x Hx. specialize (H x Hx).
  unfold not_space, not_newline, isspace in *.
  destruct (x =? NL) eqn:E; [|reflexivity].
  apply N.eqb_eq in E. subst x. discriminate H.
Qed.

Lemma split_once_blank_line (u r : pystr) :
  forallb not_newline u = true ->
  split_once [NL; NL] (u ++ [NL; NL] ++ r) = (u, Some r).
Proof.
  induction u as [|c u IH]; intros H.
  - destruct r; reflexivity.
  - cbn [forallb] in H. apply andb_true_iff in H as [Hc H].
    cbn [app split_once startswith]. unfold not_newline in Hc.
    apply negb_true_iff in Hc. rewrite N.eqb_sym, Hc. cbn [andb].
    change (split_once [NL; NL] (u ++ NL :: NL :: r))
      with (split_once [NL; NL] (u ++ [NL; NL] ++ r)).
    rewrite (IH H). reflexivity.
Qed.

Lemma split_once_no_blank_line (u : pystr) :
  forallb not_newline u = true -> split_once [NL; NL] u = (u, None).
Proof.
  induction u as [|c u IH]; intros H; [reflexivity|].
  cbn [forallb] in H. apply andb_true_iff in H as [Hc H].
  cbn [split_once startswith]. unfold not_newline in Hc.
  apply negb_true_iff in Hc. rewrite N.eqb_sym, Hc. cbn [andb].
  rewrite (IH H). reflexivity.
Qed.

Lemma split_char_one_line (u : pystr) :
  forallb not_newline u = true -> split_char NL u = [u].
Proof.
  induction u as [|c u IH]; intros H; [reflexivity|].
  cbn [forallb] in H. apply andb_true_iff in H as [Hc H].
  cbn [split_char]. unfold not_newline in Hc.
  apply negb_true_iff in Hc. rewrite Hc, (IH H). reflexivity.
Qed.

Lemma http_url_stripped (u : pystr) : http_url u -> strip u = u.
Proof.
  intros (scheme & rest & -> & Hs & Hr & Fr).
  apply strip_by_fixed; [now apply scheme_not_space|].
  now apply stops_rev_tail.
Qed.

Lemma http_url_one_line (u : pystr) :
  http_url u -> forallb not_newline u = true.
Proof.
  intros (scheme & rest & -> & Hs & Hr & Fr).
  rewrite forallb_app. rewrite (not_space_not_newline _ Fr).
  destruct Hs as [-> | ->]; reflexivity.
Qed.

Lemma http_url_matches (u : pystr) :
  http_url u -> is_some (re_match url_pattern u) = true.
Proof.
  intros (scheme & rest & -> & Hs & Hr & Fr).
  unfold re_match, match_here, url_pattern.
  rewrite rmatch_Cat, rmatch_Bol_start, rmatch_Cat.
  erewrite url_shape_whole; [reflexivity | exact Hs | exact Hr | exact Fr |].
  rewrite rmatch_Eol_end. reflexivity.
Qed.

Lemma http_url_cons (u : pystr) : http_url u -> exists c r, u = c :: r.
Proof.
  intros (scheme & rest & -> & [-> | ->] & _); cbn; eauto.
Qed.

Lemma rstrip_by_after (p : char -> bool) (u x : pystr) :
  u <> [] -> stops p (rev u) ->
  rstrip_by p (u ++ x) = u ++ rstrip_by p x.
Proof.
  intros Hu Su. destruct (rstrip_by p x) as [|c r] eqn:E.
  - apply rstrip_by_nil in E. rewrite rstrip_by_blank by exact E.
    rewrite app_nil_r. unfold rstrip_by.
    rewrite lstrip_by_stops by exact Su. apply rev_involutive.
  - rewrite <- E. apply rstrip_by_kept. congruence.
Qed.

Lemma lstrip_by_blank_prefix (p : char -> bool) (s : pystr) :
  exists a, s = a ++ lstrip_by p s /\ forallb p a = true.
Proof.
  induction s as [|c s (a & IH & F)]; [now exists []|].
  cbn [lstrip_by]. destruct (p c) eqn:E.
  - exists (c :: a). cbn. rewrite E, F, <- IH. auto.
  - now exists [].
Qed.

Lemma strip_by_rstrip_by (p : char -> bool) (s : pystr) :
  strip_by p (rstrip_by p s) = strip_by p s.
Proof.
  destruct (lstrip_by_blank_prefix p (rev s)) as (a & Ha & Fa).
  assert (E : s = [] ++ rstrip_by p s ++ rev a).
  { cbn [app]. unfold rstrip_by. rewrite <- rev_app_distr, <- Ha.
    symmetry. apply rev_involutive. }
  rewrite E at 2. symmetry. apply strip_by_blank; [reflexivity|].
  rewrite forallb_forall in *. intros x Hx. apply Fa. now apply in_rev.
Qed.

Section SingleForm.
Variable L : Library.

Lemma json_form_http_url (u rest : pystr) :
  http_url u -> json_form L (u ++ rest) = None.
Proof.
  intros (scheme & r & -> & [-> | ->] & _); reflexivity.
Qed.

(** X3.  The single-item form with a note: a URL, a blank line and a note
    with no bullet line in it give exactly one item, made of the URL and of
    the stripped note. *)
Theorem url_then_note (u n : pystr) :
  http_url u ->
  bullet_lines (strip (u ++ [NL; NL] ++ n)) = [] ->
  parse_input_file L (u ++ [NL; NL] ++ n)
  = Ok [ {| url := PStr u; note := PStr (strip n) |} ].
Proof.
  intros Hu HB.
  assert (Su : strip u = u) by now apply http_url_stripped.
  assert (Nu : forallb not_newline u = true) by now apply http_url_one_line.
  assert (Mu : is_some (re_match url_pattern u) = true)
    by now apply http_url_matches.
  assert (S : strip (u ++ [NL; NL] ++ n)
              = u ++ rstrip_by isspace ([NL; NL] ++ n)).
  { unfold strip, strip_by.
    destruct Hu as (scheme & r & -> & Hs & Hr & Fr).
    rewrite lstrip_by_stops
      by (rewrite <- app_assoc; now apply scheme_not_space).
    apply rstrip_by_after.
    - destruct Hs as [-> | ->]; discriminate.
    - now apply stops_rev_tail. }
  unfold parse_input_file. rewrite S in *.
  destruct (http_url_cons Hu) as (c & r & Ec).
  assert (J := @json_form_http_url u (rstrip_by isspace ([NL; NL] ++ n)) Hu).
  destruct (u ++ rstrip_by isspace ([NL; NL] ++ n)) as [|c' text] eqn:Et.
  { rewrite Ec in Et. discriminate Et. }
  rewrite J, list_items_bullet_lines.
  fold (bullet_lines (c' :: text)). rewrite HB. cbn [map].
  rewrite <- Et. clear Et J HB S c' text. f_equal.
  unfold single_form.
  destruct (rstrip_by isspace n) as [|c' r'] eqn:En.
  - apply rstrip_by_nil in En.
    replace (rstrip_by isspace ([NL; NL] ++ n)) with (@nil char).
    2:{ symmetry. apply rstrip_by_nil. rewrite forallb_app, En. reflexivity. }
    rewrite app_nil_r, (split_once_no_blank_line _ Nu).
    cbn [fst snd]. rewrite Su, (split_char_one_line _ Nu). cbn [hd].
    rewrite Su, Mu. rewrite (strip_blank _ En). reflexivity.
  - rewrite rstrip_by_kept by congruence.
    rewrite (split_once_blank_line _ _ Nu).
    cbn [fst snd]. rewrite Su, (split_char_one_line _ Nu). cbn [hd].
    rewrite Su, Mu. do 3 f_equal. apply strip_by_rstrip_by.
Qed.
End SingleForm.

Lemma url_then_note_witness :
  parse_input_file sample_library
    (str "https://example.com/a" ++ [NL; NL] ++ str "  read later ")
  = Ok [ {| url := PStr (str "https://example.com/a");
            note := PStr (strip (str "  read later ")) |} ].
Proof.
  apply url_then_note.
  - exists (str "https://"), (str "example.com/a").
    repeat split; [now right | discriminate].
  - reflexivity.
Defined.

Lemma filter_length_mono {A} (f g : A -> bool) (l : list A) :
  (forall x, In x l -> f x = true -> g x = true) ->
  (length (filter f l) <= length (filter g l))%nat.
Proof.
  induction l as [|x l IH]; intros H; [reflexivity|].
  cbn [filter]. assert (IH' := IH (fun y Hy => H y (or_intror Hy))).
  destruct (f x) eqn:F.
  - rewrite (H x (or_introl eq_refl) F). cbn. lia.
  - destruct (g x); cbn; lia.
Qed.

Lemma contains_app (s t a b : pystr) :
  contains s t = true -> contains (a ++ s ++ b) t = true.
Proof. rewrite !contains_spec. apply substring_app. Qed.

Lemma mapM_item_of_dicts (ds : list (list (pystr * pyval))) :
  mapM item_of (map PDict ds) = Ok (map dict_item ds).
Proof.
  induction ds as [|d ds IH]; [reflexivity|].
  cbn [map mapM]. rewrite IH. reflexivity.
Qed.

Section MoreProgramProperties.
Variable L : Library.

(** X4.  The JSON form: when the stripped text starts with a brace or a
    bracket and [json.loads] reads it as an object, the result is the one
    item of that object; when it reads it as an array of objects, the
    result is the items of the objects in order.  A missing [url] or [note]
    is the empty text, and the other forms are not consulted. *)
Theorem json_objects_items (content : pystr) (v : pyval) :
  startswith (strip content) (str "{")
  || startswith (strip content) (str "[") = true ->
  json_loads L (strip content) = Loaded v ->
  (forall d, v = PDict d -> parse_input_file L content = Ok [dict_item d])
  /\ (forall ds, v = PList (map PDict ds) ->
      parse_input_file L content = Ok (map dict_item ds)).
Proof.
  intros HS HL. unfold parse_input_file.
  destruct (strip content) as [|c text] eqn:E.
  { discriminate HS. }
  unfold json_form. rewrite HS, HL.
  split.
  - intros d ->. reflexivity.
  - intros ds ->. apply mapM_item_of_dicts.
Qed.

(** X5.  The three tests are monotone in the text: text added before and
    after never turns a login page, a Cloudflare challenge or a URL that
    needs rendering into one that is not. *)
Theorem validators_monotone (a c b : pystr) :
  (is_login_page c = true -> is_login_page (a ++ c ++ b) = true)
  /\ (is_cloudflare_challenge L c = true ->
      is_cloudflare_challenge L (a ++ c ++ b) = true)
  /\ (needs_js_rendering c = true -> needs_js_rendering (a ++ c ++ b) = true).
Proof.
  split; [|split].
  - unfold is_login_page. rewrite !existsb_exists.
    intros [ind [Hin H]]. exists ind. split; [exact Hin|].
    now apply contains_app.
  - unfold is_cloudflare_challenge, cloudflare_matches.
    rewrite !Nat.leb_le. intros H.
    eapply Nat.le_trans; [exact H|].
    apply filter_length_mono. intros ind _.
    rewrite !lower_app. apply contains_app.
  - unfold needs_js_rendering. rewrite !existsb_exists.
    intros [p [Hin H]]. exists p. split; [exact Hin|].
    unfold JS_REQUIRED_PATTERNS in Hin. cbn [In] in Hin.
    destruct Hin as [<- | [<- | [<- | []]]];
      rewrite re_search_lit in *; now apply contains_app.
Qed.

(** X6.  The URL test of [fetch_url] and the dispatch inside
    [fetch_via_playwright] agree: a URL that [needs_js_rendering] accepts
    is never given to the generic walker.  It goes to the Claude walker
    when [claude.ai/share/] occurs in it, and to the ChatGPT walker when
    [claude.ai/share] does not occur in it. *)
Theorem share_urls_get_share_walkers (url : pystr) :
  needs_js_rendering url = true ->
  walker_of url <> Generic
  /\ (substring (str "claude.ai/share/") url -> walker_of url = ClaudeShare)
  /\ (~ substring (str "claude.ai/share") url -> walker_of url = ChatGPTShare).
Proof.
  unfold needs_js_rendering, JS_REQUIRED_PATTERNS. cbn [existsb].
  rewrite !re_search_lit, orb_false_r. unfold walker_of.
  assert (P : forall t x, contains url (t ++ [x]) = true -> contains url t = true).
  { intros t x. rewrite !contains_spec. intros [p [q ->]].
    exists p, (x :: q). now rewrite <- app_assoc. }
  intros H.
  assert (Q : contains url (str "claude.ai/share")
              || (contains url (str "chatgpt.com/share")
                  || contains url (str "chat.openai.com/share")) = true).
  { apply orb_true_iff in H as [H | H]; [|apply orb_true_iff in H as [H | H]].
    - apply (P (str "claude.ai/share") 47) in H. now rewrite H.
    - apply (P (str "chatgpt.com/share") 47) in H. rewrite H.
      apply orb_true_r.
    - apply (P (str "chat.openai.com/share") 47) in H. rewrite H.
      rewrite !orb_true_r. reflexivity. }
  split; [|split].
  - destruct (contains url (str "claude.ai/share")); [discriminate|].
    cbn [orb] in Q. rewrite Q. discriminate.
  - intros S. apply contains_spec in S. now rewrite (P (str "claude.ai/share") 47 S).
  - intros S. apply contains_false in S. rewrite S in *. cbn [orb] in Q.
    now rewrite Q.
Qed.
End MoreProgramProperties.

Lemma json_objects_items_witness :
  parse_input_file json_library ([NL] ++ json_two_objects ++ [NL])
  = Ok (map dict_item two_objects).
Proof.
  refine (proj2 (@json_objects_items json_library
                   ([NL] ++ json_two_objects ++ [NL])
                   (PList (map PDict two_objects)) _ _) two_objects eq_refl);
    vm_compute; reflexivity.
Defined.

Lemma share_urls_get_share_walkers_witness :
  needs_js_rendering (str "https://claude.ai/share/abc") = true
  /\ walker_of (str "https://claude.ai/share/abc") = ClaudeShare.
Proof.
  split; [reflexivity|].
  apply (@share_urls_get_share_walkers (str "https://claude.ai/share/abc"));
    [reflexivity|].
  exists (str "https://"), (str "abc"). reflexivity.
Defined.

Lemma substring_refl (s : pystr) : substring s s.
Proof. exists [], []. cbn. now rewrite app_nil_r. Qed.

Lemma substring_trans (a b c : pystr) :
  substring a b -> substring b c -> substring a c.
Proof. intros H [x [y ->]]. now apply substring_app. Qed.

Lemma substring_join (sep x : pystr) (l : list pystr) :
  In x l -> substring x (join sep l).
Proof.
  induction l as [|y l IH]; [intros []|].
  intros [-> | H]; cbn [join].
  - destruct l as [|z l]; [apply substring_refl|].
    exists [], (sep ++ join sep (z :: l)). reflexivity.
  - destruct l as [|z l]; [destruct H|].
    specialize (IH H). destruct IH as [p [q E]]. rewrite E.
    exists (y ++ sep ++ p), q. now rewrite <- !app_assoc.
Qed.

Lemma substring_markdown (x t body : pystr) :
  substring x body -> substring x (markdown t body).
Proof.
  intros [p [q ->]]. unfold markdown.
  exists (str "# " ++ t ++ [NL; NL] ++ p), q. now rewrite <- !app_assoc.
Qed.

(** ** The walkers *)

Lemma claude_title_not_Claude (page : Page) :
  claude_title page <> str "Claude".
Proof.
  unfold claude_title.
  set (t := if contains (page_title page) (str " - Claude")
            then strip (replace (str " - Claude") [] (page_title page))
            else page_title page).
  destruct (str_eqb (str "Claude") t) eqn:E; [discriminate|].
  intros H. rewrite H in E. discriminate E.
Qed.

Lemma extract_claude_share_shape (page : Page) :
  exists body,
    extract_claude_share page
    = (markdown (claude_title page) body, claude_title page)
    /\ (flat_map claude_message (first_turns page selectors_to_try []) <> [] ->
        body = join TURN_SEPARATOR
                 (flat_map claude_message (first_turns page selectors_to_try []))).
Proof.
  unfold extract_claude_share.
  destruct (first_turns page selectors_to_try []) as [|turn turns].
  - cbn [nonempty flat_map]. unfold claude_without_turns, or_else.
    destruct (query_selector page (str "main")) as [main|].
    + destruct (nonempty (inner_text main) && (100 <? length (inner_text main))%nat).
      * eexists. split; [reflexivity | congruence].
      * destruct (query_selector page (str "body")) as [body|];
          eexists; (split; [reflexivity | congruence]).
    + destruct (query_selector page (str "body")) as [body|];
        eexists; (split; [reflexivity | congruence]).
  - cbn [nonempty].
    destruct (flat_map claude_message (turn :: turns)) as [|m0 ms].
    + cbn [nonempty].
      destruct (query_selector page (str "main")) as [main|];
        eexists; (split; [reflexivity | congruence]).
    + cbn [nonempty]. eexists. split; reflexivity.
Qed.

(** X10.  [extract_claude_share] returns the normalised page title, which
    is never the bare word [Claude], and a content that is the heading
    [# title], a blank line and a body; every turn of the first selector
    that finds any, whose stripped text has more than ten characters,
    occurs in the content. *)
Theorem claude_share_markdown (page : Page) :
  snd (extract_claude_share page) = claude_title page
  /\ claude_title page <> str "Claude"
  /\ (exists body,
        fst (extract_claude_share page) = markdown (claude_title page) body)
  /\ (forall m,
        In m (flat_map claude_message (first_turns page selectors_to_try [])) ->
        substring m (fst (extract_claude_share page))).
Proof.
  destruct (extract_claude_share_shape page) as (body & E & B).
  rewrite E. cbn [fst snd].
  split; [reflexivity|]. split; [apply claude_title_not_Claude|].
  split; [eauto|]. intros m Hm.
  rewrite B by (intros Z; rewrite Z in Hm; exact Hm).
  now apply substring_markdown, substring_join.
Qed.

Lemma chatgpt_message_texts (turn : Element) :
  nonempty (strip (inner_text turn)) = true ->
  exists m, chatgpt_message turn = [m]
    /\ substring (strip (inner_text turn)) m
    /\ (author_role turn = Some (str "user") ->
        m = str "**Human:**" ++ [NL] ++ strip (inner_text turn))
    /\ (author_role turn = Some (str "assistant") ->
        m = str "**Assistant:**" ++ [NL] ++ strip (inner_text turn)).
Proof.
  intros H. unfold chatgpt_message. rewrite H.
  set (role := match author_role turn with Some r => r | None => [] end).
  destruct (str_eqb role (str "user")) eqn:U;
    [|destruct (str_eqb role (str "assistant")) eqn:A];
    eexists; (split; [reflexivity|]); split.
  - exists (str "**Human:**" ++ [NL]), []. now rewrite app_nil_r.
  - split; [reflexivity|]. intros R. subst role. rewrite R in U.
    discriminate U.
  - exists (str "**Assistant:**" ++ [NL]), []. now rewrite app_nil_r.
  - split; [|reflexivity]. intros R. subst role. rewrite R in U.
    discriminate U.
  - apply substring_refl.
  - split; intros R; subst role; rewrite R in *; discriminate.
Qed.

(** X11.  [extract_chatgpt_share], when the turns appear in time: every
    turn with a text that is not blank occurs stripped in the content,
    under [**Human:**] when its role is [user] and under [**Assistant:**]
    when its role is [assistant]; the content starts with the heading of
    the normalised title. *)
Theorem chatgpt_share_turns (page : Page) (turn : Element) :
  wait_for_selector page CHATGPT_WAIT = Ok tt ->
  In turn (query_selector_all page CHATGPT_TURNS) ->
  nonempty (strip (inner_text turn)) = true ->
  exists content,
    extract_chatgpt_share page = Ok (content, chatgpt_title page)
    /\ (exists body, content = markdown (chatgpt_title page) body)
    /\ substring (strip (inner_text turn)) content
    /\ (author_role turn = Some (str "user") ->
        substring (str "**Human:**" ++ [NL] ++ strip (inner_text turn)) content)
    /\ (author_role turn = Some (str "assistant") ->
        substring (str "**Assistant:**" ++ [NL] ++ strip (inner_text turn))
                  content).
Proof.
  intros HW HI HT. unfold extract_chatgpt_share. rewrite HW. cbn [bind].
  destruct (query_selector_all page CHATGPT_TURNS) as [|t0 ts] eqn:Q;
    [destruct HI|].
  cbn [nonempty]. eexists. split; [reflexivity|]. split; [eauto|].
  destruct (chatgpt_message_texts turn HT) as (m & Em & S & U & A).
  assert (In m (flat_map chatgpt_message (t0 :: ts))).
  { apply in_flat_map. exists turn. split; [exact HI|]. rewrite Em. now left. }
  assert (substring m (markdown (chatgpt_title page)
                         (join TURN_SEPARATOR (flat_map chatgpt_message (t0 :: ts)))))
    by now apply substring_markdown, substring_join.
  split; [now apply (substring_trans S)|].
  split; intros R; [rewrite <- (U R) | rewrite <- (A R)]; assumption.
Qed.

Section Fetchers.
Variable L : Library.

Lemma fetch_via_jina_success (W : World) (url : pystr) :
  success (fetch_via_jina L W url) = true ->
  urlopen W (JINA_READER_PREFIX ++ url)
  = HttpBody (content (fetch_via_jina L W url))
  /\ is_login_page (content (fetch_via_jina L W url)) = false.
Proof.
  unfold fetch_via_jina.
  destruct (urlopen W (JINA_READER_PREFIX ++ url)) as [body|code reason|reason|msg];
    try discriminate.
  destruct (is_login_page body) eqn:P; [discriminate|].
  destruct (re_search_multiline title_pattern body); [cbn; auto|].
  destruct (urlparse_netloc L url); [cbn; auto | discriminate].
Qed.

Lemma fetch_via_playwright_success (W : World) (url : pystr) :
  success (fetch_via_playwright L W url) = true ->
  browse W url = Extracted (content (fetch_via_playwright L W url))
                           (title (fetch_via_playwright L W url))
  /\ (100 <= length (strip (content (fetch_via_playwright L W url))))%nat
  /\ is_cloudflare_challenge L (content (fetch_via_playwright L W url)) = false
  /\ title (fetch_via_playwright L W url) <> str "Just a moment...".
Proof.
  unfold fetch_via_playwright.
  destruct (browse W url) as [|msg|c t]; try discriminate.
  destruct (match c with [] => true | _ => false end
            || (length (strip c) <? 100)%nat) eqn:S; [discriminate|].
  destruct (is_cloudflare_challenge L c || str_eqb t (str "Just a moment..."))
    eqn:C; [discriminate|].
  intros _. cbn [content title fetched].
  apply orb_false_iff in S as [_ S]. apply Nat.ltb_ge in S.
  apply orb_false_iff in C as [C1 C2].
  repeat split; auto.
  intros ->. discriminate C2.
Qed.

(** X8.  Whatever [fetch_url] returns as a success has passed the checks
    of the fetcher it came from: it is the body the proxy answered for a
    URL that needs no rendering, with no login phrase in it, or it is the
    text the browser extracted, with at least 100 characters once stripped,
    not a Cloudflare challenge, under a title other than
    [Just a moment...]. *)
Theorem fetched_content_is_validated (W : World) (url : pystr)
        (r : FetchOutcome) :
  fst (fetch_url L W url) = Ok r -> success r = true ->
  (needs_js_rendering url = false
   /\ urlopen W (JINA_READER_PREFIX ++ url) = HttpBody (content r)
   /\ is_login_page (content r) = false)
  \/ (browse W url = Extracted (content r) (title r)
      /\ (100 <= length (strip (content r)))%nat
      /\ is_cloudflare_challenge L (content r) = false
      /\ title r <> str "Just a moment...").
Proof.
  unfold fetch_url.
  destruct (needs_js_rendering url) eqn:N.
  - cbn. intros [= <-] S. right. now apply fetch_via_playwright_success.
  - cbn [call tbind fst].
    destruct (success (fetch_via_jina L W url)) eqn:J.
    + cbn. intros [= <-] _. left. split; [reflexivity|].
      now apply fetch_via_jina_success.
    + destruct (error (fetch_via_jina L W url)) as [err|]; [|discriminate].
      destruct (login_page_error L err).
      * cbn. intros [= <-] S. right. now apply fetch_via_playwright_success.
      * cbn. intros [= <-] S. rewrite S in J. discriminate J.
Qed.

End Fetchers.

Lemma chatgpt_share_turns_witness :
  exists content,
    extract_chatgpt_share
      (example_page "Dates | ChatGPT" [user_turn; assistant_turn] (Ok tt))
    = Ok (content, str "Dates")
    /\ substring (str "**Human:**" ++ [NL] ++ str "How do I parse a date?")
                 content.
Proof.
  destruct (@chatgpt_share_turns
              (example_page "Dates | ChatGPT" [user_turn; assistant_turn] (Ok tt))
              user_turn eq_refl (or_introl eq_refl) eq_refl)
    as (content & E & _ & _ & U & _).
  exists content. split; [exact E | exact (U eq_refl)].
Defined.

Lemma fetched_content_is_validated_witness :
  urlopen world_page (JINA_READER_PREFIX ++ example_url)
  = HttpBody (str "# Example" ++ [NL] ++ long_text)
  /\ is_login_page (str "# Example" ++ [NL] ++ long_text) = false.
Proof.
  destruct (@fetched_content_is_validated sample_library world_page example_url
              (fetched (str "Example") (str "# Example" ++ [NL] ++ long_text))
              eq_refl eq_refl) as [(_ & H) | (H & _)].
  - exact H.
  - discriminate H.
Defined.


(** ** The title of a page read through the proxy *)

Lemma search_from_at (ml : bool) (r : regex) (s : pystr)
      (prev : option char) (m : rematch) :
  search_from ml r prev s = Some m ->
  exists pre s', s = pre ++ s'
                 /\ match_here ml r (before pre prev) s' = Some m.
Proof.
  revert prev. induction s as [|c s IH]; intros prev; cbn [search_from].
  - destruct (match_here ml r prev []) eqn:E; [|discriminate].
    intros [= <-]. exists [], []. auto.
  - destruct (match_here ml r prev (c :: s)) eqn:E.
    + intros [= <-]. exists [], (c :: s). auto.
    + intros H. destruct (IH _ H) as (pre & s' & -> & M).
      exists (c :: pre), s'. split; [reflexivity|].
      now rewrite before_cons.
Qed.

Lemma strip_by_forallb (p q : char -> bool) (s : pystr) :
  forallb q s = true -> forallb q (strip_by p s) = true.
Proof.
  destruct (strip_by_part p s) as (a & b & E). intros H.
  rewrite E, !forallb_app in H.
  apply andb_true_iff in H as [_ H]. now apply andb_true_iff in H as [H _].
Qed.

Lemma strip_by_idem (p : char -> bool) (s : pystr) :
  strip_by p (strip_by p s) = strip_by p s.
Proof.
  destruct (strip_by_ends p s). now apply strip_by_fixed.
Qed.

Lemma bol_at (ml : bool) (R : Type) (k : cont R) (caps : captures)
      (s : pystr) (prev : option char) (v : R) :
  rmatch ml Bol prev s caps k = Some v -> at_bol ml prev = true.
Proof. cbn [rmatch]. destruct (at_bol ml prev); [auto | discriminate]. Qed.

Lemma at_bol_before (pre : pystr) :
  at_bol true (before pre None) = true ->
  pre = [] \/ exists p, pre = p ++ [NL].
Proof.
  destruct pre as [|c pre]; [now left|]. intros H. right.
  destruct (@exists_last _ (c :: pre)) as (p & x & E); [discriminate|].
  exists p. rewrite E in *. unfold before in H.
  rewrite map_app in H. cbn [map] in H. rewrite last_last in H. cbn in H.
  apply N.eqb_eq in H. now subst x.
Qed.

Lemma at_eol_line (post : pystr) :
  at_eol true post = true -> post = [] \/ exists q, post = NL :: q.
Proof.
  destruct post as [|c q]; [now left|]. cbn [at_eol orb].
  intros H. apply andb_true_iff in H as [H _].
  apply N.eqb_eq in H. subst c. right. now exists q.
Qed.

(** What [title_pattern] has read: at the start of a line, [#], white
    space, and a text without line break as group 1, up to the end of a
    line. *)
Lemma title_pattern_inv (s : pystr) (prev : option char) (m : rematch) :
  match_here true title_pattern prev s = Some m ->
  exists ws g rest,
    s = str "#" ++ ws ++ g ++ rest
    /\ at_bol true prev = true
    /\ ws <> [] /\ forallb isspace ws = true
    /\ g <> [] /\ forallb not_newline g = true
    /\ at_eol true rest = true
    /\ group_or_empty m 1 = g.
Proof.
  unfold match_here, title_pattern. intros H.
  rewrite rmatch_Cat in H. pose proof (bol_at _ _ _ _ _ H) as B.
  apply bol_inv in H.
  rewrite rmatch_Cat in H. apply lit_inv in H as (s1 & -> & H).
  rewrite rmatch_Cat in H.
  apply plus_inv in H as (ws & s2 & pr & -> & Hws & Fws & H).
  rewrite rmatch_Cat, rmatch_Group in H.
  apply plus_inv in H as (g & rest & pr1 & -> & Hg & Fg & H).
  rewrite firstn_consumed in H.
  apply eol_inv in H as [A H]. injection H as <-.
  exists ws, g, rest. repeat split; auto.
Qed.

Section JinaTitle.
Variable L : Library.

(** X7.  The title of a page read through the proxy is the host of the
    URL, or it comes from a heading of the body: a [#] at the start of a
    line, white space, and a text without line break that reaches the end
    of its line; the title is that text stripped, so it has no line break
    and no white space at its ends. *)
Theorem jina_title_is_heading_or_host (W : World) (url : pystr) :
  success (fetch_via_jina L W url) = true ->
  urlparse_netloc L url = Ok (title (fetch_via_jina L W url))
  \/ exists pre ws g post,
       content (fetch_via_jina L W url) = pre ++ str "#" ++ ws ++ g ++ post
       /\ (pre = [] \/ exists p, pre = p ++ [NL])
       /\ ws <> [] /\ forallb isspace ws = true
       /\ g <> [] /\ forallb not_newline g = true
       /\ (post = [] \/ exists q, post = NL :: q)
       /\ title (fetch_via_jina L W url) = strip g
       /\ forallb not_newline (title (fetch_via_jina L W url)) = true
       /\ strip (title (fetch_via_jina L W url))
          = title (fetch_via_jina L W url).
Proof.
  unfold fetch_via_jina.
  destruct (urlopen W (JINA_READER_PREFIX ++ url)) as [body|code reason|reason|msg];
    try discriminate.
  destruct (is_login_page body); [discriminate|].
  destruct (re_search_multiline title_pattern body) as [m|] eqn:S.
  - intros _. cbn [title content fetched].
    apply search_from_at in S as (pre & s' & -> & M).
    apply title_pattern_inv
      in M as (ws & g & rest & -> & B & Hws & Fws & Hg & Fg & A & G).
    rewrite G. right. exists pre, ws, g, rest.
    split; [reflexivity|]. split; [now apply at_bol_before|].
    do 4 (split; [assumption|]). split; [now apply at_eol_line|].
    split; [reflexivity|].
    split; [now apply strip_by_forallb | apply strip_by_idem].
  - destruct (urlparse_netloc L url) as [netloc|e]; [|discriminate].
    intros _. cbn [title fetched]. left; reflexivity.
Qed.
End JinaTitle.

Lemma jina_title_is_heading_or_host_witness :
  success (fetch_via_jina sample_library world_page example_url) = true
  /\ title (fetch_via_jina sample_library world_page example_url) = str "Example"
  /\ forallb not_newline
       (title (fetch_via_jina sample_library world_page example_url)) = true.
Proof.
  split; [reflexivity|]. split; [reflexivity|].
  destruct (@jina_title_is_heading_or_host sample_library world_page
              example_url eq_refl)
    as [H | (pre & ws & g & post & _ & _ & _ & _ & _ & _ & _ & _ & H & _)].
  - discriminate H.
  - exact H.
Defined.

(** ** The name and the text of an output file *)

Section OutputFile.
Variable L : Library.

Lemma digit_name_char (n : Z) : name_char L (digit n).
Proof.
  left. unfold digit.
  pose proof (Z.mod_pos_bound n 10 ltac:(lia)) as B.
  set (k := (n mod 10)%Z) in *.
  assert (K : (k = 0 \/ k = 1 \/ k = 2 \/ k = 3 \/ k = 4 \/ k = 5 \/ k = 6
               \/ k = 7 \/ k = 8 \/ k = 9)%Z) by lia.
  clearbody k.
  repeat (destruct K as [-> | K]; [reflexivity|]). subst k. reflexivity.
Qed.

Lemma zfill_name_chars (w : nat) (n : Z) : Forall (name_char L) (zfill w n).
Proof.
  revert n; induction w as [|w IH]; intros n; cbn [zfill]; [constructor|].
  apply Forall_app. split; [apply IH|].
  constructor; [apply digit_name_char | constructor].
Qed.

Lemma strftime_compact_name_chars (t : datetime) :
  Forall (name_char L) (strftime_compact t).
Proof.
  unfold strftime_compact.
  destruct (civil_from_days (epoch_seconds t / 86400)) as [[y m] d].
  assert (H : forall c, name_char L c -> Forall (name_char L) [c])
    by (intros c Hc; constructor; [exact Hc | constructor]).
  assert (Z := zfill_name_chars).
  rewrite !Forall_app. repeat split; auto.
  - apply H. right. now left.
  - apply H. right. now left.
  - apply H. now left.
Qed.

Lemma slugify_name_chars (text : pystr) (max_length : nat) :
  Forall (name_char L) (slugify L text max_length).
Proof.
  rewrite slugify_uncut. apply Forall_forall. intros c Hc.
  destruct (firstn_part max_length (uncut_slug L text)) as [b Hb].
  destruct (@uncut_slug_chars L text c) as [H | H].
  - rewrite Hb, in_app_iff. now left.
  - now left.
  - right. now left.
Qed.

Lemma title_slug_is_slug (url title slug : pystr) :
  title_slug L url title = Ok slug -> exists text, slug = slugify L text 50.
Proof.
  unfold title_slug. destruct title as [|c t].
  - destruct (urlparse_netloc L url) as [netloc|e]; [|discriminate].
    cbn. intros [= <-]. eauto.
  - intros [= <-]. eauto.
Qed.

Lemma output_file_text (u t c : pystr) (n : pyval)
      (ts : datetime) (filename text : pystr) :
  output_file L u t c n ts = Ok (filename, text) ->
  exists slug note_line,
    title_slug L u t = Ok slug
    /\ source_note_line n = Ok note_line
    /\ filename = strftime_compact ts ++ str "-" ++ slug ++ str ".md"
    /\ text = (frontmatter_head u t ts ++ note_line ++ str "---" ++ [NL; NL])
              ++ c.
Proof.
  unfold output_file.
  destruct (title_slug L u t) as [slug|]; [|discriminate].
  destruct (source_note_line n) as [nl|]; [|discriminate].
  unfold bind. intros H. exists slug, nl.
  split; [reflexivity|]. split; [reflexivity|]. split.
  - apply (f_equal (fun r => match r with Ok (f, _) => f | Raise _ => [] end)) in H.
    symmetry. exact H.
  - apply (f_equal (fun r => match r with Ok (_, x) => x | Raise _ => [] end)) in H.
    symmetry. exact H.
Qed.

(** X13.  The file [write_output] writes, for a timestamp between 1970
    and the year 9999: its name is the compact timestamp, a hyphen, a slug
    and [.md], between 21 and 71 characters, made of word characters,
    hyphens and dots alone, so with no path separator; its text starts with
    the front matter that opens with the [url] line and ends with the
    fetched content, unchanged. *)
Theorem output_file_is_well_named (u t c : pystr) (n : pyval)
        (ts : datetime) (filename text : pystr) :
  (0 <= ts < LIMIT)%Z ->
  output_file L u t c n ts = Ok (filename, text) ->
  (21 <= length filename <= 71)%nat
  /\ (exists stem, filename = strftime_compact ts ++ str "-" ++ stem ++ str ".md")
  /\ Forall (name_char L) filename
  /\ ~ In 47 filename
  /\ (exists front,
        text = str "---" ++ [NL] ++ str "url: " ++ u ++ [NL] ++ front
               ++ str "---" ++ [NL; NL] ++ c).
Proof.
  intros _ H.
  apply output_file_text in H as (slug & nl & HS & HN & -> & ->).
  apply title_slug_is_slug in HS as (x & ->).
  assert (F : Forall (name_char L)
                (strftime_compact ts ++ str "-" ++ slugify L x 50 ++ str ".md")).
  { rewrite !Forall_app. repeat split.
    - apply strftime_compact_name_chars.
    - constructor; [right; left; reflexivity | constructor].
    - apply slugify_name_chars.
    - constructor; [now right; right|].
      constructor; [now left|]. constructor; [now left | constructor]. }
  split; [|split; [eauto|split; [exact F|split]]].
  - rewrite !length_app, strftime_compact_length.
    pose proof (slugify_length L x 50) as B.
    change (length (str "-")) with 1%nat. change (length (str ".md")) with 3%nat.
    lia.
  - intros I47. rewrite Forall_forall in F.
    destruct (F _ I47) as [W | [W | W]]; discriminate W.
  - exists (str "title: " ++ t ++ [NL] ++ str "fetched_at: " ++ isoformat ts
            ++ [NL] ++ nl).
    unfold frontmatter_head. now rewrite <- !app_assoc.
Qed.
End OutputFile.

Lemma output_file_is_well_named_witness :
  (21 <= length (strftime_compact 1793737845123456%Z ++ str "-hello-world.md")
   <= 71)%nat
  /\ forallb (fun c => negb (c =? 47))
       (strftime_compact 1793737845123456%Z ++ str "-hello-world.md") = true.
Proof.
  split; [|reflexivity].
  apply (@output_file_is_well_named sample_library example_url
           (str "Hello, World!") long_text (PStr []) 1793737845123456%Z
           _ _ ltac:(unfold LIMIT; lia)
           (@output_file_hello_world sample_library example_url long_text
              1793737845123456%Z)).
Defined.

Section MoreRunnerProperties.
Variable L : Library.
Variable E : Env.




Lemma process_file_returns (f : DirEntry) (st : RunState) :
  fst (process_file L E f st) = Ok tt.
Proof.
  destruct (process_file_effect L E f st) as [st' [P _]]. now rewrite P.
Qed.



(** *** What a run leaves in the queue *)

Lemma process_file_clean (f : DirEntry) (st : RunState) :
  (n_failed (results st) <= n_failed (results (snd (process_file L E f st))))%nat
  /\ (n_failed (results (snd (process_file L E f st))) = n_failed (results st) ->
      queue_dir (snd (process_file L E f st))
      = filter (other_name f) (queue_dir st)
      /\ files_processed (results (snd (process_file L E f st)))
         = files_processed (results st) ++ [name f]).
Proof.
  unfold process_file, try_except, mbind, lift.
  destruct (read_text f) as [c|e].
  2:{ cbn. split; lia. }
  destruct (parse_input_file L c) as [[|item urls]|e].
  - cbn. split; lia.
  - pose proof (@process_items_effect L E (item :: urls) 0%nat st) as H.
    destruct (process_items L E 0 (item :: urls) st) as [[[]|e] st1];
      cbn [snd] in H; destruct H as (Q & P & N & _).
    + cbn. rewrite Q, P. split; [exact N | auto].
    + cbn. split; lia.
  - cbn. split; lia.
Qed.

Lemma filter_none_of (f : DirEntry) (fs l : list DirEntry) :
  filter (none_of fs) (filter (other_name f) l) = filter (none_of (f :: fs)) l.
Proof.
  induction l as [|e l IH]; [reflexivity|].
  cbn [filter]. unfold other_name at 1, none_of at 2. cbn [existsb].
  destruct (str_eqb (name e) (name f)); cbn [negb orb].
  - exact IH.
  - cbn [filter]. fold (none_of fs e). now rewrite IH.
Qed.

Lemma process_files_clean (fs : list DirEntry) (st : RunState) :
  (n_failed (results st)
   <= n_failed (results (snd (process_files L E fs st))))%nat
  /\ (n_failed (results (snd (process_files L E fs st))) = n_failed (results st) ->
      queue_dir (snd (process_files L E fs st))
      = filter (none_of fs) (queue_dir st)
      /\ files_processed (results (snd (process_files L E fs st)))
         = files_processed (results st) ++ map name fs).
Proof.
  revert st; induction fs as [|f fs IH]; intros st.
  - cbn. split; [lia|]. intros _. split; [|now rewrite app_nil_r].
    induction (queue_dir st) as [|e l IHl]; [reflexivity|].
    cbn. now rewrite <- IHl.
  - cbn [process_files]. unfold mbind.
    pose proof (process_file_clean f st) as [N1 C1].
    pose proof (process_file_returns f st) as R.
    destruct (process_file L E f st) as [r st1]. cbn [fst snd] in *. subst r.
    destruct (IH st1) as [N2 C2].
    split; [lia|]. intros H.
    destruct C1 as [D1 P1]; [lia|]. destruct C2 as [D2 P2]; [lia|].
    rewrite D2, P2, D1, P1, filter_none_of, <- app_assoc. auto.
Qed.

(** X15.  A run that ends with status 0 has consumed the queue: the
    processed files are all the queue files, in the order of the directory
    listing, and what is left in the directory is what are not queue
    files. *)
Theorem clean_exit_empties_queue (entries : list DirEntry) (st : RunState) :
  process_queue L E (Some entries) = Summary st 0 ->
  files_processed (results st) = map name (filter is_queue_file entries)
  /\ queue_dir st = filter (none_of (filter is_queue_file entries)) entries
  /\ Forall (fun e => is_queue_file e = false) (queue_dir st).
Proof.
  unfold process_queue. fold is_queue_file.
  destruct (filter is_queue_file entries) as [|q qs] eqn:Q; [discriminate|].
  destruct (process_files_clean (q :: qs) (initial_state entries)) as [_ C].
  cbn [initial_state results n_failed queue_dir files_processed] in C.
  set (r := snd (process_files L E (q :: qs) (initial_state entries))) in *.
  clearbody r. intros H. injection H as <- H.
  destruct (n_failed (results r)) eqn:F; [|cbn in H; discriminate H].
  destruct (C eq_refl) as [D P]. split; [exact P|]. split; [exact D|].
  rewrite D. apply Forall_forall. intros e He.
  apply filter_In in He as [He Hn].
  destruct (is_queue_file e) eqn:Qe; [|reflexivity].
  assert (In e (q :: qs)) as HI by (rewrite <- Q; apply filter_In; auto).
  unfold none_of in Hn. apply negb_true_iff in Hn.
  assert (existsb (fun f => str_eqb (name e) (name f)) (q :: qs) = true).
  { apply existsb_exists. exists e. split; [exact HI|]. now apply str_eqb_eq. }
  congruence.
Qed.

Lemma process_file_dir (f : DirEntry) (st : RunState) (e : DirEntry) :
  In e (queue_dir (snd (process_file L E f st))) -> In e (queue_dir st).
Proof.
  destruct (process_file_effect L E f st) as [st' [P (_ & _ & D)]].
  rewrite P. cbn [snd].
  destruct D as [[-> _] | [_ [-> _]]]; [auto|].
  intros H. now apply filter_In in H.
Qed.

Lemma process_files_dir (fs : list DirEntry) (st : RunState) (e : DirEntry) :
  In e (queue_dir (snd (process_files L E fs st))) -> In e (queue_dir st).
Proof.
  revert st; induction fs as [|f fs IH]; intros st; [auto|].
  cbn [process_files]. unfold mbind.
  pose proof (@process_file_dir f st e) as D.
  pose proof (process_file_returns f st) as R.
  destruct (process_file L E f st) as [r st1]. cbn [fst snd] in *. subst r.
  intros H. apply D. now apply IH.
Qed.

(** X16.  A run only ever deletes queue files: nothing appears in the
    queue directory, an entry whose name is not the name of a queue file
    stays, and [.gitkeep] stays. *)
Theorem run_keeps_other_entries (entries : list DirEntry) (st : RunState)
        (exit_code : Z) :
  process_queue L E (Some entries) = Summary st exit_code ->
  (forall e, In e (queue_dir st) -> In e entries)
  /\ (forall e, In e entries ->
        (forall f, In f entries -> is_queue_file f = true -> name f <> name e) ->
        In e (queue_dir st))
  /\ (forall e, In e entries -> name e = str ".gitkeep" -> In e (queue_dir st)).
Proof.
  unfold process_queue. fold is_queue_file.
  destruct (filter is_queue_file entries) as [|q qs] eqn:Q; [discriminate|].
  remember (snd (process_files L E (q :: qs) (initial_state entries))) as r eqn:R.
  intros [= <- _].
  assert (Stay : forall e, In e entries ->
            (forall f, In f entries -> is_queue_file f = true -> name f <> name e) ->
            In e (queue_dir r)).
  { intros e He Hn.
    destruct (@process_files_effect L E (q :: qs) (initial_state entries) e)
      as [st' [P (K & _)]].
    - intros f Hf Hname. rewrite <- Q in Hf. apply filter_In in Hf as [Hf Hq].
      elim (Hn f Hf Hq Hname).
    - rewrite R, P. apply K. exact He. }
  split; [|split].
  - intros e He. rewrite R in He. apply process_files_dir in He. exact He.
  - exact Stay.
  - intros e He Hname. apply Stay; [exact He|].
    intros f _ Hq Hf. unfold is_queue_file in Hq.
    apply andb_true_iff in Hq as [_ Hq]. apply negb_true_iff in Hq.
    rewrite Hf, Hname in Hq.
    assert (str_eqb (str ".gitkeep") (str ".gitkeep") = true)
      by now apply str_eqb_eq.
    congruence.
Qed.
End MoreRunnerProperties.

Lemma http_url_truthy (u : pystr) : http_url u -> truthy (PStr u) = true.
Proof. intros H. destruct (http_url_cons H) as (c & r & ->). reflexivity. Qed.

Section LostFiles.
Variable L : Library.
Variable E : Env.

Lemma process_item_fetch_fails (i : nat) (item : QueueItem) (st : RunState) :
  never_fetches L E -> text_item item ->
  exists st', process_item L E i item st = (Ok tt, st')
    /\ queue_dir st' = queue_dir st
    /\ written st' = written st
    /\ files_processed (results st') = files_processed (results st)
    /\ n_success (results st') = n_success (results st)
    /\ n_failed (results st') = S (n_failed (results st)).
Proof.
  intros NF (u & n & Hu & Hn & H). unfold process_item.
  rewrite Hu, (http_url_truthy H). cbn [negb].
  unfold mbind, run_fetch_url.
  destruct (fetch_url_returns L (world_at E (fetches st)) u) as (r & R & _).
  rewrite R, (NF _ _ _ R). eexists. split; [reflexivity|].
  cbn. auto.
Qed.

Lemma process_items_fetch_fail (urls : list QueueItem) (i : nat)
      (st : RunState) :
  never_fetches L E -> Forall text_item urls ->
  exists st', process_items L E i urls st = (Ok tt, st')
    /\ queue_dir st' = queue_dir st
    /\ written st' = written st
    /\ files_processed (results st') = files_processed (results st)
    /\ n_success (results st') = n_success (results st)
    /\ n_failed (results st') = (n_failed (results st) + length urls)%nat.
Proof.
  intros NF. revert i st; induction urls as [|item urls IH]; intros i st F.
  - exists st. cbn. repeat split; auto.
  - inversion F as [|? ? Hi Hrest]; subst.
    destruct (@process_item_fetch_fails i item st NF Hi)
      as (st1 & P1 & Q1 & W1 & F1 & S1 & N1).
    destruct (IH (S i) st1 Hrest) as (st2 & P2 & Q2 & W2 & F2 & S2 & N2).
    exists st2. cbn [process_items length]. unfold mbind. rewrite P1.
    split; [exact P2|]. repeat split; try congruence. lia.
Qed.

(** X17.  A queue file whose URLs all fail to fetch is deleted all the
    same: every URL is counted as a failure, nothing is written, and the
    file is removed from the queue and listed as processed. *)
Theorem unfetched_file_is_deleted (f : DirEntry) (c : pystr)
        (items : list QueueItem) (st : RunState) :
  read_text f = Ok c -> parse_input_file L c = Ok items -> items <> [] ->
  Forall text_item items -> never_fetches L E ->
  exists st',
    process_file L E f st = (Ok tt, st')
    /\ queue_dir st' = filter (other_name f) (queue_dir st)
    /\ files_processed (results st') = files_processed (results st) ++ [name f]
    /\ written st' = written st
    /\ n_success (results st') = n_success (results st)
    /\ n_failed (results st') = (n_failed (results st) + length items)%nat.
Proof.
  intros HR HP HI HF NF.
  destruct (@process_items_fetch_fail items 0%nat st NF HF)
    as (st1 & P1 & Q1 & W1 & F1 & S1 & N1).
  unfold process_file, try_except, mbind, lift. rewrite HR, HP.
  destruct items as [|item items]; [congruence|].
  rewrite P1. eexists. split; [reflexivity|]. cbn.
  rewrite Q1, F1. auto.
Qed.
End LostFiles.

Section SingleUrlMode.
Variable L : Library.
Variable E : Env.

(** X18.  The single-URL mode does for its URL what the queue mode does
    for the first item of a file: the same fetch, the same clock reading
    and the same file written, with no offset on the timestamp.  It counts
    nothing; its exit status is 0 exactly when the queue mode would count
    a success, and 1 exactly when it would count a failure. *)
Theorem single_url_is_first_item (u n : pystr) (st : RunState) :
  u <> [] ->
  let one := fetch_single_url L E u n st in
  let item := process_item L E 0 {| url := PStr u; note := PStr n |} st in
  written (snd one) = written (snd item)
  /\ fetches (snd one) = fetches (snd item)
  /\ clock_reads (snd one) = clock_reads (snd item)
  /\ queue_dir (snd one) = queue_dir (snd item)
  /\ results (snd one) = results st
  /\ (fst one = Ok 0%Z <->
      n_success (results (snd item)) = S (n_success (results st)))
  /\ (fst one = Ok 1%Z <->
      n_failed (results (snd item)) = S (n_failed (results st))).
Proof.
  intros Hu. destruct u as [|c u]; [congruence|].
  unfold fetch_single_url, process_item.
  cbn [url note truthy negb Nat.ltb Nat.leb].
  unfold mbind, run_fetch_url.
  destruct (fst (fetch_url L (world_at E (fetches st)) (c :: u))) as [r|e].
  2:{ cbn. repeat split; auto; try discriminate; lia. }
  destruct (success r).
  2:{ cbn. repeat split; auto; try discriminate; lia. }
  unfold now. cbn [clock_reads]. unfold write_output, mbind, lift.
  destruct (output_file L (c :: u) (title r) (content r) (PStr n) _)
    as [[filename text]|e].
  2:{ cbn. repeat split; auto; try discriminate; lia. }
  cbn. repeat split; auto; try discriminate; lia.
Qed.

(** X19.  The entry point: with no argument the queue is processed; with
    a URL as first argument the queue directory is neither read nor
    changed, exactly one fetch is made and at most one file is written,
    one when the status is 0 and none when it is 1. *)
Theorem main_modes (argv : list pystr) (queue : option (list DirEntry)) :
  ((length argv <= 1)%nat ->
   main L E argv queue = QueueRun (process_queue L E queue))
  /\ (forall prog url rest, argv = prog :: url :: rest ->
      exists status st,
        main L E argv queue = SingleUrl status st
        /\ queue_dir st = match queue with Some es => es | None => [] end
        /\ results st = results (initial_state [])
        /\ fetches st = 1%nat
        /\ (length (written st) <= 1)%nat
        /\ (status = Ok 0%Z -> length (written st) = 1%nat)
        /\ (status = Ok 1%Z -> written st = [])).
Proof.
  split.
  - destruct argv as [|a [|b rest]]; cbn [length]; [reflexivity | reflexivity | lia].
  - intros prog url rest ->. unfold main, fetch_single_url.
    set (note := match rest with n :: _ => n | [] => [] end).
    set (entries := match queue with Some es => es | None => [] end).
    unfold mbind, run_fetch_url.
    destruct (fst (fetch_url L (world_at E (fetches (initial_state entries))) url))
      as [r|e].
    2:{ eexists _, _. split; [reflexivity|]. cbn.
        repeat split; auto; discriminate. }
    destruct (success r).
    2:{ eexists _, _. split; [reflexivity|]. cbn.
        repeat split; auto; discriminate. }
    unfold now. unfold write_output, mbind, lift.
    destruct (output_file L url (title r) (content r) (PStr note) _)
      as [[filename text]|e].
    2:{ eexists _, _. split; [reflexivity|]. cbn.
        repeat split; auto; discriminate. }
    eexists _, _. split; [reflexivity|]. cbn.
    repeat split; auto; discriminate.
Qed.
End SingleUrlMode.

Lemma env_unreachable_never_fetches : never_fetches sample_library env_unreachable.
Proof.
  intros k u r. cbn [world_at env_unreachable]. unfold fetch_url.
  destruct (needs_js_rendering u).
  - cbn. intros [= <-]. reflexivity.
  - cbn. intros [= <-]. reflexivity.
Qed.

Lemma unfetched_file_is_deleted_witness :
  exists st',
    process_file sample_library env_unreachable two_urls_file
                 (initial_state [gitkeep; two_urls_file])
    = (Ok tt, st')
    /\ queue_dir st' = [gitkeep]
    /\ written st' = []
    /\ n_failed (results st') = 2%nat.
Proof.
  destruct (@unfetched_file_is_deleted sample_library env_unreachable
              two_urls_file two_bullets
              [ {| url := PStr (str "https://example.com/a");
                   note := PStr (str "first") |};
                {| url := PStr (str "https://example.com/b");
                   note := PStr [] |} ]
              (initial_state [gitkeep; two_urls_file]))
    as (st' & P & Q & _ & W & _ & N).
  - reflexivity.
  - vm_compute. reflexivity.
  - discriminate.
  - repeat constructor.
    + exists (str "https://example.com/a"), (str "first").
      repeat split. exists (str "https://"), (str "example.com/a").
      repeat split; [now right | discriminate].
    + exists (str "https://example.com/b"), [].
      repeat split. exists (str "https://"), (str "example.com/b").
      repeat split; [now right | discriminate].
  - exact env_unreachable_never_fetches.
  - exists st'. split; [exact P|]. split; [exact Q|]. split; [exact W | exact N].
Defined.

Lemma single_url_is_first_item_witness :
  written (snd (fetch_single_url sample_library env_fixed_clock example_url
                  (str "read later") (initial_state [])))
  = written (snd (process_item sample_library env_fixed_clock 0
                    {| url := PStr example_url; note := PStr (str "read later") |}
                    (initial_state []))).
Proof.
  apply (@single_url_is_first_item sample_library env_fixed_clock example_url
           (str "read later") (initial_state [])).
  discriminate.
Defined.


Lemma clean_exit_empties_queue_witness :
  exists st,
    process_queue sample_library env_fixed_clock
                  (Some [gitkeep; one_url_file "a.txt"; one_url_file "b.txt"])
    = Summary st 0
    /\ files_processed (results st) = [str "a.txt"; str "b.txt"]
    /\ queue_dir st = [gitkeep].
Proof.
  eexists. split; [vm_compute; reflexivity|].
  destruct (@clean_exit_empties_queue sample_library env_fixed_clock
              [gitkeep; one_url_file "a.txt"; one_url_file "b.txt"] _
              ltac:(vm_compute; reflexivity)) as (P & D & _).
  split; [exact P | exact D].
Defined.

Lemma run_keeps_other_entries_witness :
  exists st,
    process_queue sample_library env_fixed_clock
                  (Some [gitkeep; one_url_file "a.txt"])
    = Summary st 0
    /\ In gitkeep (queue_dir st).
Proof.
  eexists. split; [vm_compute; reflexivity|].
  refine (proj2 (proj2 (@run_keeps_other_entries sample_library env_fixed_clock
              [gitkeep; one_url_file "a.txt"] _ 0%Z _)) gitkeep _ eq_refl).
  - vm_compute. reflexivity.
  - cbn. tauto.
Defined.

Lemma blanks_around_are_ignored_witness :
  parse_input_file sample_library (str "  " ++ two_bullets ++ [NL])
  = parse_input_file sample_library two_bullets
  /\ parse_input_file sample_library (str "  ") = Ok [].
Proof.
  apply (@blanks_around_are_ignored sample_library (str "  ") two_bullets [NL]);
    reflexivity.
Defined.

Lemma text_forms_give_http_urls_witness :
  exists items, parse_input_file sample_library two_bullets = Ok items
                /\ Forall text_item items.
Proof.
  apply (@text_forms_give_http_urls sample_library two_bullets).
  vm_compute. reflexivity.
Defined.
